(** * AEFS superblock code (corefs/superblock.c)

    A shallow embedding of the superblock layer of AEFS: the key phrase
    hash [coreHashKey], the two readers [readSuperBlock1] and
    [readSuperBlock2], and the entry points [coreReadSuperBlock] and
    [coreWriteSuperBlock], followed by the properties of the
    specification that concern them.

    Conventions.  An [octet] and a [char] are integers ([Z]); a C string
    is the list of its characters without the terminating NUL; an [int]
    is a [Z] within the range of a 32-bit signed integer.  Where C leaves
    the behaviour of the program undefined (an access outside an array,
    an [int] that overflows, a dereferenced pointer that was never set)
    the embedding answers [None]. *)

From Equations Require Import Equations.
From stdpp Require Import gmap strings list fin_maps.

Open Scope Z_scope.

(** ** Result codes *)

(** The result kinds [superblock.c] names.  [CORERC_OTHER] stands for the
    remaining members of the enumeration (declared in a header that is
    not part of this file), which only the collaborators can return. *)
Inductive CoreResult : Type :=
| CORERC_OK
| CORERC_NOT_ENOUGH_MEMORY
| CORERC_UNKNOWN_CIPHER
| CORERC_MISC_CIPHER
| CORERC_STORAGE
| CORERC_INVALID_PARAMETER
| CORERC_READ_ONLY
| CORERC_BAD_SUPERBLOCK
| CORERC_BAD_VERSION
| CORERC_OTHER (code : positive).

Inductive CipherResult : Type :=
| CIPHERRC_OK
| CIPHERRC_NOT_ENOUGH_MEMORY
| CIPHERRC_UNKNOWN_CIPHER
| CIPHERRC_OTHER (code : positive).

#[global] Instance CoreResult_eq_dec : EqDecision CoreResult.
Proof. solve_decision. Defined.

#[global] Instance CipherResult_eq_dec : EqDecision CipherResult.
Proof. solve_decision. Defined.

(** [if (cr)]: a result code is true when it is not the OK code. *)
Definition failed (cr : CoreResult) : bool :=
  match cr with CORERC_OK => false | _ => true end.

Definition cipherResultToCore (cr : CipherResult) : CoreResult :=
  match cr with
  | CIPHERRC_OK => CORERC_OK
  | CIPHERRC_NOT_ENOUGH_MEMORY => CORERC_NOT_ENOUGH_MEMORY
  | CIPHERRC_UNKNOWN_CIPHER => CORERC_UNKNOWN_CIPHER
  | _ => CORERC_MISC_CIPHER
  end.

(** ** Machine integers and C strings *)

Definition INT_MIN : Z := - 2 ^ 31.
Definition INT_MAX : Z := 2 ^ 31 - 1.

(** The value of an [int] expression: undefined outside the range. *)
Definition as_int (z : Z) : option Z :=
  if (INT_MIN <=? z) && (z <=? INT_MAX) then Some z else None.

(** The C string held in a character array: the characters before the
    first NUL. *)
Fixpoint cstr (a : list Z) : list Z :=
  match a with
  | [] => []
  | c :: a' => if c =? 0 then [] else c :: cstr a'
  end.

(** Character codes of a string literal. *)
Fixpoint str (s : string) : list Z :=
  match s with
  | EmptyString => []
  | String c s' => Z.of_N (Ascii.N_of_ascii c) :: str s'
  end.

(** ** The SHA collaborator *)

Definition SHA_DIGESTSIZE : nat := 20.

(** [sha_init]; [sha_update]...; [sha_final]; [sha_digest]: the digest of
    the bytes fed to the hash, an array of [SHA_DIGESTSIZE] octets. *)
Class Sha := {
  sha : list Z -> list Z;
  sha_length : forall m, length (sha m) = SHA_DIGESTSIZE
}.

(** ** coreHashKey *)

Section KeyDerivation.
Context `{Sha}.

(** The inner loop
    [for (i = 0; i < SHA_DIGESTSIZE; i++) {
       pabKey[iPos++] ^= digest[i];
       if (iPos == cbKey) iPos = 0; }]
    run over the octets of the digest.  [pabKey] holds [cbKey] octets;
    an index outside it is undefined. *)
Fixpoint xor_digest (digest : list Z) (cbKey : Z) (pabKey : list Z) (iPos : Z)
  : option (list Z * Z) :=
  match digest with
  | [] => Some (pabKey, iPos)
  | d :: digest' =>
      if iPos <? 0 then None else
      match pabKey !! Z.to_nat iPos with
      | None => None
      | Some k =>
          let pabKey' := <[Z.to_nat iPos := Z.lxor k d]> pabKey in
          let iPos' := iPos + 1 in
          xor_digest digest' cbKey pabKey' (if iPos' =? cbKey then 0 else iPos')
      end
  end.

(** The loop [while (cbLeft > 0)]; [cbLeft] is the length of what is
    left of the key phrase (a string in memory, shorter than 2^31
    characters, so that [strlen] fits the [int]), and [cbAdd] the smaller
    of it and [SHA_DIGESTSIZE]. *)
Equations? hash_loop (cbKey : Z) (pszKey : list Z) (pabKey : list Z) (iPos : Z)
  : option (list Z) by wf (length pszKey) lt :=
  hash_loop cbKey [] pabKey iPos := Some pabKey;
  hash_loop cbKey (c :: s) pabKey iPos
    with xor_digest
           (sha (pabKey ++ take (Nat.min SHA_DIGESTSIZE (length (c :: s))) (c :: s)))
           cbKey pabKey iPos => {
    | None := None;
    | Some (pabKey', iPos') :=
        hash_loop cbKey
          (drop (Nat.min SHA_DIGESTSIZE (length (c :: s))) (c :: s)) pabKey' iPos' }.
Proof. rewrite length_drop. unfold SHA_DIGESTSIZE. simpl. lia. Qed.

(** [memset(pabKey, 0, cbKey)] followed by the loop.  A negative
    [cbKey] is an undefined [memset]. *)
Definition coreHashKey (pszKey : list Z) (cbKey : Z) : option (CoreResult * list Z) :=
  if cbKey <? 0 then None else
  match hash_loop cbKey pszKey (replicate (Z.to_nat cbKey) 0) 0 with
  | None => None
  | Some pabKey => Some (CORERC_OK, pabKey)
  end.

End KeyDerivation.

(** ** The reference key derivation of the specification

    The algorithm as the specification words it (section 4.1): the
    output buffer starts as zero bytes; the passphrase is cut into chunks
    of at most D bytes; for each chunk the hash of (buffer + chunk) is
    XORed cyclically into the buffer, from the position where the
    previous chunk ended, wrapping modulo the key length. *)

Section Reference.
Context `{Sha}.

Equations? chunks (s : list Z) : list (list Z) by wf (length s) lt :=
  chunks [] := [];
  chunks (c :: s) := take SHA_DIGESTSIZE (c :: s) :: chunks (drop SHA_DIGESTSIZE (c :: s)).
Proof. rewrite length_drop. unfold SHA_DIGESTSIZE. simpl. lia. Qed.

(** XOR the digest into [key], its j-th byte at position (pos + j) mod L. *)
Fixpoint xor_cyclic (L pos : nat) (digest key : list Z) : list Z :=
  match digest with
  | [] => key
  | d :: ds => xor_cyclic L (S pos) ds (alter (fun k => Z.lxor k d) (pos mod L)%nat key)
  end.

Definition derive_step (L : nat) (st : list Z * nat) (chunk : list Z) : list Z * nat :=
  (xor_cyclic L st.2 (sha (st.1 ++ chunk)) st.1, ((st.2 + SHA_DIGESTSIZE) mod L)%nat).

Definition deriveKey (passphrase : list Z) (keyLength : nat) : list Z :=
  (foldl (derive_step keyLength) (replicate keyLength 0, 0%nat) (chunks passphrase)).1.

End Reference.

(** ** The pieces of stdio the file uses: formatted input *)

Definition EOF : Z := -1.

(** [isspace] and [isdigit] in the C locale. *)
Definition isspace (c : Z) : bool := (c =? 32) || ((9 <=? c) && (c <=? 13)).
Definition isdigit (c : Z) : bool := (48 <=? c) && (c <=? 57).

(** A white-space directive of a format, and the white space [%s] and
    [%d] skip before they convert. *)
Fixpoint skip_space (s : list Z) : list Z :=
  match s with
  | c :: s' => if isspace c then skip_space s' else s
  | [] => []
  end.

(** [%[^x]] with a field width of [n]: the longest run of at most [n]
    characters other than [x], and the input that is left. *)
Fixpoint scan_until (n : nat) (x : Z) (s : list Z) : list Z * list Z :=
  match n, s with
  | S n', c :: s' =>
      if c =? x then ([], s)
      else let '(m, r) := scan_until n' x s' in (c :: m, r)
  | _, _ => ([], s)
  end.

(** [%s] after the white space is skipped: the longest run of characters
    that are not white space. *)
Fixpoint scan_word (s : list Z) : list Z * list Z :=
  match s with
  | c :: s' =>
      if isspace c then ([], s)
      else let '(m, r) := scan_word s' in (c :: m, r)
  | [] => ([], [])
  end.

Fixpoint scan_digits (acc : Z) (s : list Z) : Z * list Z :=
  match s with
  | c :: s' => if isdigit c then scan_digits (10 * acc + (c - 48)) s' else (acc, s)
  | [] => (acc, [])
  end.

(** [%d]: white space, an optional sign, at least one decimal digit.
    [None] is a matching failure; the value is the mathematical one. *)
Definition scan_d (s : list Z) : option (Z * list Z) :=
  let s1 := skip_space s in
  let '(neg, s2) :=
    match s1 with
    | c :: r => if c =? 45 then (true, r) else if c =? 43 then (false, r) else (false, s1)
    | [] => (false, s1)
    end in
  match s2 with
  | c :: _ =>
      if isdigit c
      then let '(v, r) := scan_digits 0 s2 in Some (if neg then - v else v, r)
      else None
  | [] => None
  end.

(** [sscanf(szLine, "%[^:]: %s\n", szName, szValue)]: the value returned
    and what was stored in [szName] and [szValue] (the caller reads them
    only when both were stored; a member that was not stored is shown
    empty).  The scan set has no width, so the name ends at the colon or
    at the end of the line; the colon is then the character in front of
    what is left. *)
Definition sscanf_name_value (szLine : list Z) : Z * list Z * list Z :=
  match scan_until (length szLine) 58 szLine with
  | ([], []) => (EOF, [], [])
  | ([], _ :: _) => (0, [], [])
  | (szName, []) => (1, szName, [])
  | (szName, _ :: r) =>
      match scan_word (skip_space (skip_space r)) with
      | ([], _) => (1, szName, [])
      | (szValue, _) => (2, szName, szValue)
      end
  end.

(** What the header loop of [readSuperBlock1] keeps between lines: the
    locals [szCipher], [cbKey], [cbBlock] and the caller's flags. *)
Record HeaderScan := mkHeaderScan {
  szCipher : list Z;
  cbKey : Z;
  cbBlock : Z;
  scanFlags : Z
}.

(** [sscanf(szValue, "%63[^-]-%d-%d", szCipher, &cbKey, &cbBlock)]: the
    value returned and the three variables afterwards.  Each conversion
    stores its result as soon as it has succeeded, whatever happens to
    the rest of the format.  A number outside [int] is undefined. *)
Definition sscanf_cipher (szValue : list Z) (st : HeaderScan) : option (Z * HeaderScan) :=
  match scan_until 63 45 szValue with
  | ([], []) => Some (EOF, st)
  | ([], _ :: _) => Some (0, st)
  | (id, r) =>
      let st1 := mkHeaderScan id (cbKey st) (cbBlock st) (scanFlags st) in
      match r with
      | [] => Some (1, st1)
      | c :: r1 =>
          if negb (c =? 45) then Some (1, st1) else
          match scan_d r1 with
          | None => Some (1, st1)
          | Some (k, r2) =>
              match as_int k with
              | None => None
              | Some k =>
                  let st2 := mkHeaderScan id k (cbBlock st) (scanFlags st) in
                  match r2 with
                  | [] => Some (2, st2)
                  | c2 :: r3 =>
                      if negb (c2 =? 45) then Some (2, st2) else
                      match scan_d r3 with
                      | None => Some (2, st2)
                      | Some (b, _) =>
                          match as_int b with
                          | None => None
                          | Some b => Some (3, mkHeaderScan id k b (scanFlags st))
                          end
                      end
                  end
              end
          end
      end
  end.

(** [fgets(s, n, file)] on what is left of the stream: at most [n - 1]
    characters, up to and including the first newline; NULL ([None]) at the
    end of the stream.  A read error ends the loop of the caller exactly as
    the end of the file does, so it is not told apart. *)
Fixpoint fgets_chars (n : nat) (f : list Z) : list Z * list Z :=
  match n, f with
  | S n', c :: f' =>
      if c =? 10 then ([c], f')
      else let '(l, r) := fgets_chars n' f' in (c :: l, r)
  | _, _ => ([], f)
  end.

Definition fgets (n : nat) (f : list Z) : option (list Z * list Z) :=
  match f with
  | [] => None
  | _ :: _ => Some (fgets_chars (n - 1) f)
  end.

(** A line that [fgets] delivers is taken off the stream. *)
Lemma fgets_shorter (n : nat) (file szLine file' : list Z) :
  (1 < n)%nat -> fgets n file = Some (szLine, file') ->
  (length file' < length file)%nat.
Proof.
  intros Hn e.
  assert (Hle : forall m c (l : list Z),
             (length (fgets_chars (S m) (c :: l)).2 <= length l)%nat).
  { clear. induction m as [|m IH]; intros c l.
    - simpl. destruct (c =? 10); simpl; lia.
    - change (fgets_chars (S (S m)) (c :: l))
        with (if c =? 10 then ([c], l)
              else let '(l0, r) := fgets_chars (S m) l in (c :: l0, r)).
      destruct (c =? 10); [simpl; lia|].
      destruct l as [|c' l]; [simpl; lia|].
      specialize (IH c' l). destruct (fgets_chars (S m) (c' :: l)) as [a b].
      simpl in *. lia. }
  destruct file as [|c f]; [discriminate|].
  unfold fgets in e.
  apply (f_equal (from_option snd [])) in e. cbn [from_option snd] in e.
  subst file'. destruct n as [|[|n]]; [lia|lia|].
  replace (S (S n) - 1)%nat with (S n) by lia.
  specialize (Hle n c f). cbn [length]. lia.
Qed.

(** ** Data of the superblock layer *)

(** A cipher descriptor of the registry; only its identifier is used. *)
Record Cipher := mkCipher {
  pszID : list Z
}.

(** A key instance as [cryptCreateKey] makes it; [pKeyData] stands for
    the cipher's own expanded key. *)
Record Key := mkKey {
  pCipher : Cipher;
  k_cbBlock : Z;
  k_cbKey : Z;
  pKeyData : list Z
}.

Record CryptedVolumeParms := mkParms {
  flCryptoFlags : Z;
  fReadOnly : bool
}.

(** A sector before encryption: the random field and the payload.  What
    else the structure holds is the business of the sector encryption. *)
Record CryptedSectorData := mkSector {
  random : list Z;
  payload : list Z
}.

(** The constants and the array sizes that the headers declare.  The
    last three members are what C asks of an array size and what the
    assertion [sizeof(SuperBlock2OnDisk) <= PAYLOAD_SIZE] of
    [coreReadSuperBlock] checks; the on-disk record is four 4-byte
    numbers, the label and the description. *)
Class Config := {
  MAX_VOLUME_BASE_PATH_NAME : nat;
  SUPERBLOCK1_NAME : string;
  SUPERBLOCK2_NAME : string;
  MAX_KEY_SIZE : Z;
  SECTOR_SIZE : nat;
  RANDOM_SIZE : nat;
  PAYLOAD_SIZE : nat;
  sizeof_szLabel : nat;
  sizeof_szDescription : nat;
  SUPERBLOCK2_MAGIC : Z;
  SBV_CURRENT : Z;
  CCRYPT_USE_CBC : Z;
  CWS_NOWRITE_SUPERBLOCK1 : Z;
  sizeof_szLabel_pos : (0 < sizeof_szLabel)%nat;
  sizeof_szDescription_pos : (0 < sizeof_szDescription)%nat;
  sizeof_SuperBlock2OnDisk_fits :
    (16 + sizeof_szLabel + sizeof_szDescription <= PAYLOAD_SIZE)%nat
}.

(** Offsets of the members of [SuperBlock2OnDisk] in the payload. *)
Definition off_magic : nat := 0.
Definition off_version : nat := 4.
Definition off_flFlags : nat := 8.
Definition off_idRoot : nat := 12.
Definition off_szLabel : nat := 16.
Definition off_szDescription `{Config} : nat := 16 + sizeof_szLabel.
Definition sizeof_SuperBlock2OnDisk `{Config} : nat :=
  16 + sizeof_szLabel + sizeof_szDescription.

(** Modelled from the spec: the macros [bytesToInt32] and [int32ToBytes]
    of a missing header; section 4.4 has every multi-byte integer of the
    record in little-endian order, 4 bytes wide. *)
Definition bytesToInt32 (b : list Z) : Z :=
  match b with
  | b0 :: b1 :: b2 :: b3 :: _ =>
      b0 `mod` 256 + 256 * (b1 `mod` 256) + 65536 * (b2 `mod` 256)
      + 16777216 * (b3 `mod` 256)
  | _ => 0
  end.

Definition int32ToBytes (x : Z) : list Z :=
  [x `mod` 256; (x / 256) `mod` 256; (x / 65536) `mod` 256; (x / 16777216) `mod` 256].

(** [n] octets of an array from offset [off] on. *)
Definition slice (off n : nat) (a : list Z) : list Z := take n (drop off a).

(** Store [bytes] into the array [a] from offset [off] on; undefined when
    they do not fit. *)
Definition write_at (off : nat) (bytes : list Z) (a : list Z) : option (list Z) :=
  if (off + length bytes <=? length a)%nat
  then Some (take off a ++ bytes ++ drop (off + length bytes) a)
  else None.

(** The source of [strcpy(dst, a)] for a character array [a]: the string
    and its NUL.  An array that holds no NUL is read past its end. *)
Definition strcpy_src (a : list Z) : option (list Z) :=
  if bool_decide (0 ∈ a) then Some (cstr a ++ [0]) else None.

(** ** One line of the plaintext header *)

Section Header.
Context `{Config}.

(** The body of the loop of [readSuperBlock1].  [continue] after a
    failed [sscanf] keeps whatever the call has stored. *)
Definition header_line (szLine : list Z) (st : HeaderScan) : option HeaderScan :=
  let '(n, szName, szValue) := sscanf_name_value (cstr szLine) in
  if negb (n =? 2) then Some st
  else if bool_decide (szName = str "cipher") then
    match sscanf_cipher szValue st with
    | None => None
    | Some (k, st') =>
        if negb (k =? 3) then Some st'
        else Some (mkHeaderScan (szCipher st') (cbKey st' ÷ 8) (cbBlock st' ÷ 8)
                     (scanFlags st'))
    end
  else if bool_decide (szName = str "use-cbc") then
    if bool_decide (szValue = str "1")
    then Some (mkHeaderScan (szCipher st) (cbKey st) (cbBlock st)
                 (Z.lor (scanFlags st) CCRYPT_USE_CBC))
    else Some (mkHeaderScan (szCipher st) (cbKey st) (cbBlock st)
                 (Z.land (scanFlags st) (Z.lnot CCRYPT_USE_CBC)))
  else Some st.

(** A value together with the equation that it is the value of [a]. *)
Definition inspect {A : Type} (a : A) : {b : A | a = b} := exist _ a eq_refl.

(** [while (fgets(szLine, sizeof(szLine), file)) { ... }] with
    [char szLine[256]]. *)
Equations? header_loop (file : list Z) (st : HeaderScan) : option HeaderScan
  by wf (length file) lt :=
  header_loop file st with inspect (fgets 256 file) => {
    | exist _ None _ := Some st;
    | exist _ (Some (szLine, file')) e with header_line szLine st => {
      | None := None;
      | Some st' := header_loop file' st' } }.
Proof. eapply fgets_shorter; [|exact e]. lia. Qed.

(** The scan of the registry, an array of descriptors that ends with a
    null pointer: the first descriptor whose [pszID] compares equal to
    [szCipher] under [strcmp], or the null pointer at the end. *)
Fixpoint find_cipher (papCipher : list Cipher) (id : list Z) : option Cipher :=
  match papCipher with
  | [] => None
  | c :: rest => if bool_decide (pszID c = id) then Some c else find_cipher rest id
  end.

(** The lines of the header as [fgets] delivers them. *)
Equations? read_lines (file : list Z) : list (list Z) by wf (length file) lt :=
  read_lines file with inspect (fgets 256 file) => {
    | exist _ None _ := [];
    | exist _ (Some (szLine, file')) e := szLine :: read_lines file' }.
Proof. eapply fgets_shorter; [|exact e]. lia. Qed.

(** What the specification says of the CBC flag (section 4.3): a line
    [use-cbc: v] sets it when [v] is [1] and clears it for any other
    value; the last such line wins; without one the flag keeps its prior
    state. *)
Definition use_cbc_of_line (szLine : list Z) : option bool :=
  let '(n, szName, szValue) := sscanf_name_value (cstr szLine) in
  if (n =? 2) && bool_decide (szName = str "use-cbc")
  then Some (bool_decide (szValue = str "1")) else None.

Definition set_cbc (b : bool) (flags : Z) : Z :=
  if b then Z.lor flags CCRYPT_USE_CBC else Z.land flags (Z.lnot CCRYPT_USE_CBC).

Definition cbc_after (file : list Z) (flags : Z) : Z :=
  match last (omap use_cbc_of_line (read_lines file)) with
  | Some b => set_cbc b flags
  | None => flags
  end.

End Header.

(** ** The world outside the program *)

(** What memory handed out by the allocator holds before it is written:
    the members of a [SuperBlock] that [coreReadSuperBlock] may leave
    untouched. *)
Record RawBlock := mkRawBlock {
  raw_magic : Z;
  raw_version : Z;
  raw_flFlags : Z;
  raw_idRoot : Z;
  raw_szLabel : list Z;
  raw_szDescription : list Z
}.

(** The files by path; a script of the calls that fail for reasons of
    their own ([true]: the next call that can fail does; past its end no
    call fails); the number of blocks of secure memory that are live; the
    contents of fresh memory; and the stream [sysGetRandomBits] draws from. *)
Record World := mkWorld {
  files : gmap string (list Z);
  faults : list bool;
  secure_blocks : nat;
  fresh : RawBlock;
  entropy : nat -> Z
}.

Definition set_files (fs : gmap string (list Z)) (w : World) : World :=
  mkWorld fs (faults w) (secure_blocks w) (fresh w) (entropy w).

(** A computation on the world; [None] is undefined behaviour. *)
Definition M (A : Type) : Type := World -> option (A * World).

Definition ret {A} (a : A) : M A := fun w => Some (a, w).

Definition bind {A B} (m : M A) (k : A -> M B) : M B :=
  fun w => match m w with
           | None => None
           | Some (a, w') => k a w'
           end.

Definition undefined {A} : M A := fun _ => None.

(** A value that a partial operation must yield. *)
Definition defined {A} (o : option A) : M A :=
  match o with
  | Some a => ret a
  | None => undefined
  end.

Notation "'let*' x := m 'in' k" := (bind m (fun x => k))
  (at level 10, x name, m at level 100, k at level 200).
Notation "'let*' ' p := m 'in' k" := (bind m (fun x => match x with p => k end))
  (at level 10, p pattern, m at level 100, k at level 200).

(** Whether the call at hand fails on its own account. *)
Definition fault : M bool := fun w =>
  match faults w with
  | [] => Some (false, w)
  | b :: fs => Some (b, mkWorld (files w) fs (secure_blocks w) (fresh w) (entropy w))
  end.

(** [fopen(path, "r")]: the stream of the file's contents, or NULL. *)
Definition fopen_r (path : string) : M (option (list Z)) :=
  let* b := fault in
  fun w => Some (if b then None else files w !! path, w).

(** [fopen(path, "w+")]: the file is created or cut to length zero; the
    stream is named by the path.  NULL leaves the file as it was. *)
Definition fopen_w (path : string) : M (option string) :=
  let* b := fault in
  if b then ret None
  else fun w => Some (Some path, set_files (<[path := []]> (files w)) w).

(** Output of [bytes] to a stream open for writing ([fprintf], [fwrite]):
    whether it succeeded.  Buffering is not modelled: output reaches the
    file at once, a failed call writes nothing. *)
Definition fput (file : string) (bytes : list Z) : M bool :=
  let* b := fault in
  if b then ret false
  else fun w =>
    Some (true, set_files (<[file := default [] (files w !! file) ++ bytes]> (files w)) w).

(** [fread(buf, n, 1, stream)] at the start of the stream: the [n]
    octets, or nothing when the call returns less than 1. *)
Definition fread (n : nat) (stream : list Z) : M (option (list Z)) :=
  let* b := fault in
  ret (if b || (length stream <? n)%nat then None else Some (take n stream)).

(** [fclose]: 0 or [EOF]. *)
Definition fclose : M Z :=
  let* b := fault in
  ret (if b then EOF else 0).

(** [sysAllocSecureMem]: whether a block was handed out. *)
Definition sysAllocSecureMem : M bool :=
  let* b := fault in
  if b then ret false
  else fun w =>
    Some (true, mkWorld (files w) (faults w) (S (secure_blocks w)) (fresh w) (entropy w)).

Definition sysFreeSecureMem : M unit := fun w =>
  Some (tt, mkWorld (files w) (faults w) (pred (secure_blocks w)) (fresh w) (entropy w)).

(** [sysGetRandomBits(nbits, buf)]: the next [nbits / 8] octets of the
    stream. *)
Definition sysGetRandomBits (nbits : nat) : M (list Z) := fun w =>
  let n := (nbits / 8)%nat in
  Some (map (entropy w) (seq 0 n),
        mkWorld (files w) (faults w) (secure_blocks w) (fresh w)
          (fun i => entropy w (n + i)%nat)).

(** [fprintf]'s [%d]. *)
Fixpoint digits (fuel : nat) (n : Z) (acc : list Z) : list Z :=
  match fuel with
  | O => acc
  | S fuel' =>
      let acc' := (48 + n `mod` 10) :: acc in
      if n <? 10 then acc' else digits fuel' (n / 10) acc'
  end.

Definition fmt_d (n : Z) : list Z :=
  if n <? 0 then 45 :: digits 11 (- n) [] else digits 11 n [].

(** The members of [SuperBlock] that the file uses, over the type of
    the volume handle.  [pKey] and [pVolume] are [None] until they are
    set. *)
Record SuperBlock (V : Type) := mkSuperBlock {
  pszBasePath : string;
  pKey : option Key;
  pVolume : option V;
  magic : Z;
  version : Z;
  flFlags : Z;
  idRoot : Z;
  szLabel : list Z;
  szDescription : list Z
}.

Arguments mkSuperBlock {V} _ _ _ _ _ _ _ _ _.
Arguments pszBasePath {V} _.
Arguments pKey {V} _.
Arguments pVolume {V} _.
Arguments magic {V} _.
Arguments version {V} _.
Arguments flFlags {V} _.
Arguments idRoot {V} _.
Arguments szLabel {V} _.
Arguments szDescription {V} _.

(** ** The collaborators of the superblock layer *)

Class Collaborators `{Config} := {
  Volume : Type;
  hash :: Sha;
  (** [cryptCreateKey(pCipher, cbBlock, cbKey, pabKey, &pKey)]: the result
      and the key stored through the last argument. *)
  cryptCreateKey : Cipher -> Z -> Z -> list Z -> CipherResult * Key;
  (** [coreDecryptSectorData(pabCrypted, &sector, pKey, flFlags)]. *)
  coreDecryptSectorData : list Z -> Key -> Z -> CoreResult * CryptedSectorData;
  coreDecryptSectorData_payload : forall c k f,
    length (payload (coreDecryptSectorData c k f).2) = PAYLOAD_SIZE;
  (** [coreEncryptSectorData(&sector, pabCrypted, pKey, flFlags)]. *)
  coreEncryptSectorData : CryptedSectorData -> Key -> Z -> list Z;
  (** [coreAccessVolume(pszBasePath, pKey, pParms, &pVolume)]: it reads the
      parameters and keeps a copy of its own. *)
  coreAccessVolume : string -> Key -> CryptedVolumeParms -> World ->
                     CoreResult * Volume * World;
  coreQueryVolumeParms : Volume -> CryptedVolumeParms
}.

(** ** readSuperBlock1, readSuperBlock2, coreReadSuperBlock *)

Section SuperBlockCode.
Context `{Collaborators}.

Definition set_pKey (k : Key) (sb : SuperBlock Volume) : SuperBlock Volume :=
  mkSuperBlock (pszBasePath sb) (Some k) (pVolume sb) (magic sb) (version sb)
    (flFlags sb) (idRoot sb) (szLabel sb) (szDescription sb).

Definition set_pVolume (v : Volume) (sb : SuperBlock Volume) : SuperBlock Volume :=
  mkSuperBlock (pszBasePath sb) (pKey sb) (Some v) (magic sb) (version sb)
    (flFlags sb) (idRoot sb) (szLabel sb) (szDescription sb).

(** [char szFileName[MAX_VOLUME_BASE_PATH_NAME + 128]] and
    [snprintf(szFileName, sizeof(szFileName), "%s" NAME, pszBasePath)]:
    the file name, or [None] when the value returned is at least
    [sizeof(szFileName)]. *)
Definition sizeof_szFileName : nat := MAX_VOLUME_BASE_PATH_NAME + 128.

Definition file_name (base name : string) : option string :=
  if (sizeof_szFileName <=? String.length (base +:+ name))%nat
  then None else Some (base +:+ name).

(** The result, the superblock and the caller's [*pParms] afterwards. *)
Definition readSuperBlock1 (pSuperBlock : SuperBlock Volume) (pszKey : list Z)
    (pParms : CryptedVolumeParms) (papCipher : list Cipher)
  : M (CoreResult * SuperBlock Volume * CryptedVolumeParms) :=
  match file_name (pszBasePath pSuperBlock) SUPERBLOCK1_NAME with
  | None => ret (CORERC_INVALID_PARAMETER, pSuperBlock, pParms)
  | Some szFileName =>
      let* file := fopen_r szFileName in
      match file with
      | None => ret (CORERC_STORAGE, pSuperBlock, pParms)
      | Some file =>
          let* st := defined (header_loop file
                                (mkHeaderScan [] 0 0 (flCryptoFlags pParms))) in
          let pParms' := mkParms (scanFlags st) (fReadOnly pParms) in
          let* rc := fclose in
          if rc =? EOF then ret (CORERC_STORAGE, pSuperBlock, pParms') else
          match find_cipher papCipher (szCipher st) with
          | None => ret (CORERC_UNKNOWN_CIPHER, pSuperBlock, pParms')
          | Some cipher =>
              (* abKey[MAX_KEY_SIZE] must hold cbKey octets *)
              if MAX_KEY_SIZE <? cbKey st then undefined else
              let* '(cr, abKey) := defined (coreHashKey pszKey (cbKey st)) in
              if failed cr then ret (cr, pSuperBlock, pParms') else
              let '(cr2, key) := cryptCreateKey cipher (cbBlock st) (cbKey st) abKey in
              if bool_decide (cr2 = CIPHERRC_OK)
              then ret (CORERC_OK, set_pKey key pSuperBlock, pParms')
              else ret (cipherResultToCore cr2, set_pKey key pSuperBlock, pParms')
          end
      end
  end.

(** The members of the superblock as [readSuperBlock2] fills them from the
    payload of a decrypted sector. *)
Definition fill_from_payload (pSuperBlock : SuperBlock Volume) (pOnDisk : list Z) : SuperBlock Volume :=
  mkSuperBlock (pszBasePath pSuperBlock) (pKey pSuperBlock) (pVolume pSuperBlock)
    (bytesToInt32 (slice off_magic 4 pOnDisk))
    (bytesToInt32 (slice off_version 4 pOnDisk))
    (bytesToInt32 (slice off_flFlags 4 pOnDisk))
    (bytesToInt32 (slice off_idRoot 4 pOnDisk))
    (<[(sizeof_szLabel - 1)%nat := 0]> (slice off_szLabel sizeof_szLabel pOnDisk))
    (<[(sizeof_szDescription - 1)%nat := 0]>
       (slice off_szDescription sizeof_szDescription pOnDisk)).

Definition readSuperBlock2 (pSuperBlock : SuperBlock Volume) (pParms : CryptedVolumeParms)
  : M (CoreResult * SuperBlock Volume) :=
  match file_name (pszBasePath pSuperBlock) SUPERBLOCK2_NAME with
  | None => ret (CORERC_INVALID_PARAMETER, pSuperBlock)
  | Some szFileName =>
      let* file := fopen_r szFileName in
      match file with
      | None => ret (CORERC_STORAGE, pSuperBlock)
      | Some file =>
          let* abSector := fread SECTOR_SIZE file in
          match abSector with
          | None => let* _ := fclose in ret (CORERC_STORAGE, pSuperBlock)
          | Some abSector =>
              let* rc := fclose in
              if rc =? EOF then ret (CORERC_STORAGE, pSuperBlock) else
              let* key := defined (pKey pSuperBlock) in
              let '(cr, sector) :=
                coreDecryptSectorData abSector key (flCryptoFlags pParms) in
              ret (cr, fill_from_payload pSuperBlock (payload sector))
          end
      end
  end.

Definition createVolume (pSuperBlock : SuperBlock Volume) (pParms : CryptedVolumeParms)
  : M (CoreResult * SuperBlock Volume) :=
  let* key := defined (pKey pSuperBlock) in
  fun w =>
    let '(cr, vol, w') := coreAccessVolume (pszBasePath pSuperBlock) key pParms w in
    Some ((cr, set_pVolume vol pSuperBlock), w').

(** The block [sysAllocSecureMem] hands out, with its base path set. *)
Definition fresh_SuperBlock (base : string) (w : World) : SuperBlock Volume :=
  mkSuperBlock base None None
    (raw_magic (fresh w)) (raw_version (fresh w)) (raw_flFlags (fresh w))
    (raw_idRoot (fresh w)) (raw_szLabel (fresh w)) (raw_szDescription (fresh w)).

Definition new_SuperBlock (base : string) : M (SuperBlock Volume) := fun w =>
  Some (fresh_SuperBlock base w, w).

(** The result, what is stored through [ppSuperBlock], and the caller's
    [*pParms] afterwards. *)
Definition coreReadSuperBlock (base : string) (pszKey : list Z)
    (papCipher : list Cipher) (pParms : CryptedVolumeParms)
  : M (CoreResult * option (SuperBlock Volume) * CryptedVolumeParms) :=
  let* ok := sysAllocSecureMem in
  if negb ok then ret (CORERC_NOT_ENOUGH_MEMORY, None, pParms) else
  let* pSuperBlock := new_SuperBlock base in
  let* '(cr, pSuperBlock, pParms) :=
    readSuperBlock1 pSuperBlock pszKey pParms papCipher in
  if failed cr then (let* _ := sysFreeSecureMem in ret (cr, None, pParms)) else
  let* '(crread2, pSuperBlock) := readSuperBlock2 pSuperBlock pParms in
  let* '(cr, pSuperBlock) := createVolume pSuperBlock pParms in
  if failed cr then (let* _ := sysFreeSecureMem in ret (cr, None, pParms)) else
  if failed crread2 then ret (crread2, Some pSuperBlock, pParms) else
  if negb (magic pSuperBlock =? SUPERBLOCK2_MAGIC)
  then ret (CORERC_BAD_SUPERBLOCK, Some pSuperBlock, pParms) else
  if SBV_CURRENT <? version pSuperBlock
  then ret (CORERC_BAD_VERSION, Some pSuperBlock, pParms) else
  ret (CORERC_OK, Some pSuperBlock, pParms).

(** ** coreWriteSuperBlock *)

(** The block under [if (!(flags & CWS_NOWRITE_SUPERBLOCK1))]: the error
    it returns with, or [CORERC_OK] when control leaves it at its end. *)
Definition write_superblock1 (pSuperBlock : SuperBlock Volume) (pParms : CryptedVolumeParms)
  : M CoreResult :=
  match file_name (pszBasePath pSuperBlock) SUPERBLOCK1_NAME with
  | None => ret CORERC_INVALID_PARAMETER
  | Some szFileName =>
      let* file := fopen_w szFileName in
      match file with
      | None => ret CORERC_STORAGE
      | Some file =>
          let* key := defined (pKey pSuperBlock) in
          let* keyBits := defined (as_int (k_cbKey key * 8)) in
          let* blockBits := defined (as_int (k_cbBlock key * 8)) in
          let* ok := fput file (str "cipher: " ++ pszID (pCipher key) ++ [45]
                                ++ fmt_d keyBits ++ [45] ++ fmt_d blockBits ++ [10]) in
          if negb ok then (let* _ := fclose in ret CORERC_STORAGE) else
          let* ok := fput file (str "use-cbc: "
                                ++ fmt_d (Z.land (flCryptoFlags pParms) CCRYPT_USE_CBC)
                                ++ [10]) in
          if negb ok then (let* _ := fclose in ret CORERC_STORAGE) else
          let* rc := fclose in
          if rc =? EOF then ret CORERC_STORAGE else ret CORERC_OK
      end
  end.

(** [sector.payload] once the record is laid out in it: the [memset] to
    zero, the four numbers, and the two [strcpy]. *)
Definition superblock2_payload (pSuperBlock : SuperBlock Volume) : option (list Z) :=
  p ← write_at off_magic (int32ToBytes SUPERBLOCK2_MAGIC) (replicate PAYLOAD_SIZE 0);
  p ← write_at off_version (int32ToBytes SBV_CURRENT) p;
  p ← write_at off_flFlags (int32ToBytes (flFlags pSuperBlock)) p;
  p ← write_at off_idRoot (int32ToBytes (idRoot pSuperBlock)) p;
  label ← strcpy_src (szLabel pSuperBlock);
  p ← write_at off_szLabel label p;
  description ← strcpy_src (szDescription pSuperBlock);
  write_at off_szDescription description p.

Definition stamp (pSuperBlock : SuperBlock Volume) : SuperBlock Volume :=
  mkSuperBlock (pszBasePath pSuperBlock) (pKey pSuperBlock) (pVolume pSuperBlock)
    SUPERBLOCK2_MAGIC SBV_CURRENT (flFlags pSuperBlock) (idRoot pSuperBlock)
    (szLabel pSuperBlock) (szDescription pSuperBlock).

Definition coreWriteSuperBlock (pSuperBlock : SuperBlock Volume) (flags : Z)
  : M (CoreResult * SuperBlock Volume) :=
  let* vol := defined (pVolume pSuperBlock) in
  let pParms := coreQueryVolumeParms vol in
  if fReadOnly pParms then ret (CORERC_READ_ONLY, pSuperBlock) else
  let* cr := (if Z.land flags CWS_NOWRITE_SUPERBLOCK1 =? 0
              then write_superblock1 pSuperBlock pParms
              else ret CORERC_OK) in
  if failed cr then ret (cr, pSuperBlock) else
  match file_name (pszBasePath pSuperBlock) SUPERBLOCK2_NAME with
  | None => ret (CORERC_INVALID_PARAMETER, pSuperBlock)
  | Some szFileName =>
      let* file := fopen_w szFileName in
      match file with
      | None => ret (CORERC_STORAGE, pSuperBlock)
      | Some file =>
          let* rnd := sysGetRandomBits (RANDOM_SIZE * 8) in
          let* p := defined (superblock2_payload pSuperBlock) in
          let* key := defined (pKey pSuperBlock) in
          let* ok := fput file (coreEncryptSectorData (mkSector rnd p) key
                                  (flCryptoFlags pParms)) in
          if negb ok then (let* _ := fclose in ret (CORERC_STORAGE, pSuperBlock)) else
          let* rc := fclose in
          if rc =? EOF then ret (CORERC_STORAGE, pSuperBlock) else
          ret (CORERC_OK, stamp pSuperBlock)
      end
  end.

End SuperBlockCode.

(** ** A concrete configuration and concrete collaborators

    An instance of the parameters above on which the code can be run: the
    sector geometry of an AEFS volume, a stand-in digest, and a stand-in
    sector cipher (the payload XORed with the first key octet, behind the
    random field and a one-octet checksum).  The volume of the stand-in is
    the copy of its parameters, and opening it is a call that can fail. *)

Module Sample.

#[export] Program Instance config : Config := {|
  MAX_VOLUME_BASE_PATH_NAME := 256;
  SUPERBLOCK1_NAME := "ISUPERBLOCK.1";
  SUPERBLOCK2_NAME := "ISUPERBLOCK.2";
  MAX_KEY_SIZE := 32;
  SECTOR_SIZE := 512;
  RANDOM_SIZE := 4;
  PAYLOAD_SIZE := 504;
  sizeof_szLabel := 12;
  sizeof_szDescription := 128;
  SUPERBLOCK2_MAGIC := 4277009102;
  SBV_CURRENT := 2;
  CCRYPT_USE_CBC := 1;
  CWS_NOWRITE_SUPERBLOCK1 := 1
|}.
Next Obligation. cbv. lia. Qed.
Next Obligation. cbv. lia. Qed.
Next Obligation. cbv. lia. Qed.

Definition digest (m : list Z) : list Z :=
  map (fun i => (foldr Z.add (Z.of_nat (length m)) m * (2 * Z.of_nat i + 3)
                 + Z.of_nat i) `mod` 256)
      (seq 0 SHA_DIGESTSIZE).

#[export] Program Instance sha_instance : Sha := {| sha := digest |}.
Next Obligation. intros m. unfold digest. rewrite length_map, length_seq. reflexivity. Qed.

Definition key_octet (k : Key) : Z := default 0 (pKeyData k !! 0%nat).

Definition checksum (p : list Z) : Z :=
  foldr (fun x acc => (x + 31 * acc + 7) `mod` 256) 0 p.

Definition encrypt (s : CryptedSectorData) (k : Key) (fl : Z) : list Z :=
  random s ++ [checksum (payload s); 0; 0; 0]
  ++ map (Z.lxor (key_octet k)) (payload s).

Definition decrypt (c : list Z) (k : Key) (fl : Z) : CoreResult * CryptedSectorData :=
  let p := resize 504 0 (map (Z.lxor (key_octet k)) (drop 8 c)) in
  (if bool_decide (c !! 4%nat = Some (checksum p)) then CORERC_OK else CORERC_OTHER 1,
   mkSector (take 4 c) p).

Definition create_key (c : Cipher) (cbBlock cbKey : Z) (pabKey : list Z)
  : CipherResult * Key :=
  (if bool_decide (cbKey = 16 \/ cbKey = 32) then CIPHERRC_OK else CIPHERRC_OTHER 1,
   mkKey c cbBlock cbKey pabKey).

Definition access_volume (base : string) (k : Key) (p : CryptedVolumeParms) (w : World)
  : CoreResult * CryptedVolumeParms * World :=
  match fault w with
  | Some (b, w') => (if b then CORERC_STORAGE else CORERC_OK, p, w')
  | None => (CORERC_STORAGE, p, w)
  end.

#[export] Program Instance collaborators : Collaborators := {|
  Volume := CryptedVolumeParms;
  hash := sha_instance;
  cryptCreateKey := create_key;
  coreDecryptSectorData := decrypt;
  coreEncryptSectorData := encrypt;
  coreAccessVolume := access_volume;
  coreQueryVolumeParms := fun v => v
|}.
Next Obligation. intros c k f. unfold decrypt. cbn [snd payload]. apply length_resize. Qed.

Definition blank : RawBlock := mkRawBlock 0 0 0 0 (replicate 12 0) (replicate 128 0).

(** A world with the files [fs], the fault script [flt] and a random
    stream started at [seed]. *)
Definition world_seeded (seed : nat) (fs : list (string * list Z)) (flt : list bool)
  : World :=
  mkWorld (list_to_map fs) flt 0 blank (fun i => Z.of_nat (17 * i + seed) `mod` 256).

Definition world (fs : list (string * list Z)) (flt : list bool) : World :=
  world_seeded 5 fs flt.

Definition registry : list Cipher :=
  [mkCipher (str "rijndael"); mkCipher (str "twofish")].

End Sample.

(** ** Worlds and superblocks to run the code on *)

Module Fixtures.
Import Sample.

(** The world after a computation, and its value. *)
Definition after {A} (m : M A) (w : World) : World :=
  match m w with Some (_, w') => w' | None => w end.

Definition value {A} (d : A) (m : M A) (w : World) : A :=
  match m w with Some (a, _) => a | None => d end.

(** A volume [vol/] made with the key phrase [secret]. *)
Definition header : list Z := str "cipher: twofish-128-128
use-cbc: 1
".

Definition parms0 : CryptedVolumeParms := mkParms 0 false.
Definition parms1 : CryptedVolumeParms := mkParms 1 false.

Definition secret_key : Key :=
  mkKey (mkCipher (str "twofish")) 16 16 (deriveKey (str "secret") 16).

(** The record file of a superblock with the given magic and version. *)
Definition record_file (k : Key) (magic version : Z) : list Z :=
  encrypt (mkSector [1; 2; 3; 4]
             (int32ToBytes magic ++ int32ToBytes version ++ replicate 496 0)) k 1.

Definition blank_SuperBlock : SuperBlock Volume :=
  mkSuperBlock "vol/" None None 0 0 0 0 [] [].

(** The stages of [coreReadSuperBlock "vol/" (str "secret") registry parms0]
    in a world [w0]. *)
Section Stages.
Variable w0 : World.

Definition stage_w1 : World := after sysAllocSecureMem w0.
Definition stage_read1 : M (CoreResult * SuperBlock Volume * CryptedVolumeParms) :=
  readSuperBlock1 (fresh_SuperBlock "vol/" stage_w1) (str "secret") parms0 registry.
Definition stage_sb1 : SuperBlock Volume :=
  (value (CORERC_OK, blank_SuperBlock, parms0) stage_read1 stage_w1).1.2.
Definition stage_w2 : World := after stage_read1 stage_w1.
Definition stage_sb2 : SuperBlock Volume :=
  (value (CORERC_OK, blank_SuperBlock) (readSuperBlock2 stage_sb1 parms1) stage_w2).2.
Definition stage_w3 : World := after (readSuperBlock2 stage_sb1 parms1) stage_w2.
Definition stage_sb3 : SuperBlock Volume :=
  (value (CORERC_OK, blank_SuperBlock) (createVolume stage_sb2 parms1) stage_w3).2.
Definition stage_w4 : World := after (createVolume stage_sb2 parms1) stage_w3.

End Stages.

(** The record file is missing. *)
Definition w_degraded : World := world [("vol/ISUPERBLOCK.1", header)] [].

(** The record decrypts, its magic is wrong and its version too new. *)
Definition w_bad_magic_new_version : World :=
  world [("vol/ISUPERBLOCK.1", header);
         ("vol/ISUPERBLOCK.2",
          record_file secret_key (SUPERBLOCK2_MAGIC + 1) (SBV_CURRENT + 1))] [].

(** The record is canonical but for its version, and the volume does not
    open (the seventh call that can fail is [coreAccessVolume]). *)
Definition w_new_version_no_volume : World :=
  world [("vol/ISUPERBLOCK.1", header);
         ("vol/ISUPERBLOCK.2",
          record_file secret_key SUPERBLOCK2_MAGIC (SBV_CURRENT + 1))]
        [false; false; false; false; false; false; true].

(** The record is canonical but for its version. *)
Definition w_new_version : World :=
  world [("vol/ISUPERBLOCK.1", header);
         ("vol/ISUPERBLOCK.2",
          record_file secret_key SUPERBLOCK2_MAGIC (SBV_CURRENT + 1))] [].

(** The header names a cipher that the registry does not hold. *)
Definition header_blowfish : list Z := str "cipher: blowfish-128-64
use-cbc: 1
".

Definition w_blowfish : World := world [("vol/ISUPERBLOCK.1", header_blowfish)] [].
Definition w_blowfish_opened : World :=
  after (fopen_r "vol/ISUPERBLOCK.1") (stage_w1 w_blowfish).
Definition w_blowfish_closed : World := after fclose w_blowfish_opened.

Definition other_key : Key :=
  mkKey (mkCipher (str "twofish")) 16 16 (deriveKey (str "wrong") 16).

Definition sb_keyed : SuperBlock Volume :=
  mkSuperBlock "vol/" (Some secret_key) None 0 0 0 0 (replicate 12 0) (replicate 128 0).

(** The record was written under another key: decryption reports an
    error. *)
Definition w_other_key : World :=
  world [("vol/ISUPERBLOCK.2", record_file other_key SUPERBLOCK2_MAGIC SBV_CURRENT)] [].
Definition w_other_key_opened : World :=
  after (fopen_r "vol/ISUPERBLOCK.2") w_other_key.
Definition sector_read : list Z :=
  record_file other_key SUPERBLOCK2_MAGIC SBV_CURRENT.
Definition w_other_key_read : World :=
  after (fread SECTOR_SIZE sector_read) w_other_key_opened.
Definition w_other_key_closed : World := after fclose w_other_key_read.
Definition sector_decrypted : CryptedSectorData := (decrypt sector_read secret_key 1).2.

Definition sb_read_only : SuperBlock Volume :=
  mkSuperBlock "vol/" (Some secret_key) (Some (mkParms 1 true)) 0 0 0 0
    (replicate 12 0) (replicate 128 0).

(** A superblock of an older version, with a stale magic, a label and a
    description. *)
Definition sb_old : SuperBlock Volume :=
  mkSuperBlock "vol/" (Some secret_key) (Some parms1) 7 1 3 9
    (str "L1" ++ replicate 10 0) (str "D1" ++ replicate 126 0).

Definition w_empty : World := world [] [].
Definition w_written : World := after (coreWriteSuperBlock sb_old 0) w_empty.

(** The sector that a write of [sb_old] puts on disk in the world [w],
    decrypted again. *)
Definition sector_written (w : World) : CryptedSectorData :=
  (decrypt (default [] (files (after (coreWriteSuperBlock sb_old 0) w)
                          !! "vol/ISUPERBLOCK.2")) secret_key 1).2.

End Fixtures.


(** ** coreDropSuperBlock *)

(** The collaborators of the teardown: [coreDropVolume(pVolume)], which
    does its own input and output, and [cryptDestroyKey(pKey)]. *)
Class Teardown `{Collaborators} := {
  coreDropVolume : Volume -> World -> CoreResult * World;
  cryptDestroyKey : Key -> World -> World
}.

Section DropCode.
Context `{Teardown}.

Definition coreDropSuperBlock (pSuperBlock : SuperBlock Volume) : M CoreResult :=
  let* vol := defined (pVolume pSuperBlock) in
  let* cr := (fun w => Some (coreDropVolume vol w)) in
  if failed cr then ret cr else
  let* key := defined (pKey pSuperBlock) in
  let* _ := (fun w => Some (tt, cryptDestroyKey key w)) in
  let* _ := sysFreeSecureMem in
  ret CORERC_OK.

End DropCode.

(** ** Notions for the statements about writing and reading back *)

(** [frame P w w']: from [w] to [w'] only files whose path satisfies [P]
    may have changed, and no block was allocated or freed. *)
Definition frame (P : string -> Prop) (w w' : World) : Prop :=
  secure_blocks w' = secure_blocks w
  /\ forall q, ~ P q -> files w' !! q = files w !! q.

Definition frames {A} (P : string -> Prop) (m : M A) : Prop :=
  forall w a w', m w = Some (a, w') -> frame P w w'.





Section WriteHalves.
Context `{Collaborators}.

(** The second half of [coreWriteSuperBlock], from the comment "Write the
    encrypted part of the superblock" on. *)
Definition write_superblock2 (pSuperBlock : SuperBlock Volume)
    (pParms : CryptedVolumeParms) : M (CoreResult * SuperBlock Volume) :=
  match file_name (pszBasePath pSuperBlock) SUPERBLOCK2_NAME with
  | None => ret (CORERC_INVALID_PARAMETER, pSuperBlock)
  | Some szFileName =>
      let* file := fopen_w szFileName in
      match file with
      | None => ret (CORERC_STORAGE, pSuperBlock)
      | Some file =>
          let* rnd := sysGetRandomBits (RANDOM_SIZE * 8) in
          let* p := defined (superblock2_payload pSuperBlock) in
          let* key := defined (pKey pSuperBlock) in
          let* ok := fput file (coreEncryptSectorData (mkSector rnd p) key
                                  (flCryptoFlags pParms)) in
          if negb ok then (let* _ := fclose in ret (CORERC_STORAGE, pSuperBlock)) else
          let* rc := fclose in
          if rc =? EOF then ret (CORERC_STORAGE, pSuperBlock) else
          ret (CORERC_OK, stamp pSuperBlock)
      end
  end.

End WriteHalves.

(** The teardown of the concrete collaborators: dropping the volume is a
    call that can fail, and a key holds nothing outside itself. *)
Module SampleTeardown.
Import Sample.

Definition drop_volume (v : CryptedVolumeParms) (w : World) : CoreResult * World :=
  match fault w with
  | Some (b, w') => (if b then CORERC_STORAGE else CORERC_OK, w')
  | None => (CORERC_STORAGE, w)
  end.

#[export] Instance teardown : Teardown := {|
  coreDropVolume := drop_volume;
  cryptDestroyKey := fun _ w => w
|}.

End SampleTeardown.

(** More worlds to run the code on. *)
Module MoreFixtures.
Import Sample SampleTeardown Fixtures.

(** The volume [vol/] with its header and a canonical record. *)
Definition w_good : World :=
  world [("vol/ISUPERBLOCK.1", header);
         ("vol/ISUPERBLOCK.2", record_file secret_key SUPERBLOCK2_MAGIC SBV_CURRENT)] [].

Definition w_good_dropped : World :=
  after (coreDropSuperBlock (stage_sb3 w_good)) (stage_w4 w_good).

(** A base path of 400 characters. *)
Definition long_base : string :=
  String.concat "" (replicate 40 "0123456789").

(** A header that asks for keys of 24 octets, which the cipher refuses. *)
Definition header_192 : list Z := str "cipher: twofish-192-128
use-cbc: 1
".

Definition w_192 : World := world [("vol/ISUPERBLOCK.1", header_192)] [].
Definition w_192_opened : World := after (fopen_r "vol/ISUPERBLOCK.1") (stage_w1 w_192).
Definition w_192_closed : World := after fclose w_192_opened.
Definition key_192 : Key :=
  mkKey (mkCipher (str "twofish")) 16 24 (deriveKey (str "secret") 24).

(** A header that asks for keys of 64 octets, twice [MAX_KEY_SIZE]. *)
Definition header_512 : list Z := str "cipher: twofish-512-128
".

Definition w_512 : World := world [("vol/ISUPERBLOCK.1", header_512)] [].
Definition w_512_opened : World := after (fopen_r "vol/ISUPERBLOCK.1") w_512.
Definition w_512_closed : World := after fclose w_512_opened.

Definition w_header_opened : World := after (fopen_r "vol/ISUPERBLOCK.1") w_degraded.
Definition w_header_closed : World := after fclose w_header_opened.

(** The next call that can fail does. *)
Definition w_failing : World := world [("vol/ISUPERBLOCK.2", [9; 9])] [true].

(** A file that belongs to no superblock. *)
Definition w_other_file : World := world [("vol/other", [1; 2; 3])] [].

End MoreFixtures.
(** * Properties *)

(** ** Key derivation *)

Section KeyDerivationFacts.
Context `{Sha}.

Lemma insert_xor_alter (l : list Z) (i : nat) (k d : Z) :
  l !! i = Some k ->
  <[i := Z.lxor k d]> l = alter (fun k => Z.lxor k d) i l.
Proof.
  revert i. induction l as [|x l IH]; intros [|i] Hk; simpl in *; try done.
  - by simplify_eq.
  - f_equal. by apply IH.
Qed.

Lemma wrap_succ (L p : nat) :
  (0 < L)%nat ->
  (if Z.of_nat (p mod L) + 1 =? Z.of_nat L then 0 else Z.of_nat (p mod L) + 1)
  = Z.of_nat (S p mod L).
Proof.
  intros HL.
  assert (Hlt : (p mod L < L)%nat) by (apply Nat.mod_upper_bound; lia).
  replace (S p) with (1 + p)%nat by lia.
  rewrite <- Nat.Div0.add_mod_idemp_r.
  generalize dependent (p mod L)%nat. intros q Hlt.
  destruct (Z.eqb_spec (Z.of_nat q + 1) (Z.of_nat L)) as [He|Hne].
  - replace (1 + q)%nat with L by lia. by rewrite Nat.Div0.mod_same.
  - rewrite Nat.mod_small by lia. lia.
Qed.

Lemma xor_digest_cyclic (digest : list Z) (cbKey : Z) :
  0 < cbKey ->
  forall (pabKey : list Z) (pos : nat),
    length pabKey = Z.to_nat cbKey ->
    xor_digest digest cbKey pabKey (Z.of_nat (pos mod Z.to_nat cbKey))
    = Some (xor_cyclic (Z.to_nat cbKey) pos digest pabKey,
            Z.of_nat ((pos + length digest) mod Z.to_nat cbKey)).
Proof.
  intros Hpos. induction digest as [|d ds IH]; intros pabKey pos Hlen.
  - simpl. by rewrite Nat.add_0_r.
  - cbn [xor_digest xor_cyclic length].
    assert (Hlt : (pos mod Z.to_nat cbKey < length pabKey)%nat)
      by (rewrite Hlen; apply Nat.mod_upper_bound; lia).
    destruct (Z.ltb_spec (Z.of_nat (pos mod Z.to_nat cbKey)) 0) as [?|_]; [lia|].
    rewrite Nat2Z.id.
    destruct (lookup_lt_is_Some_2 _ _ Hlt) as [k Hk]. rewrite Hk.
    rewrite (insert_xor_alter _ _ _ _ Hk).
    pose proof (wrap_succ (Z.to_nat cbKey) pos) as Hw.
    rewrite Z2Nat.id in Hw by lia. rewrite Hw by lia.
    rewrite IH by (by rewrite length_alter).
    by replace (S pos + length ds)%nat with (pos + S (length ds))%nat by lia.
Qed.

Lemma take_min_length {A} (n : nat) (l : list A) :
  take (n `min` length l) l = take n l.
Proof.
  destruct (Nat.le_ge_cases n (length l)).
  - by rewrite Nat.min_l.
  - rewrite Nat.min_r by done. by rewrite !take_ge.
Qed.

Lemma drop_min_length {A} (n : nat) (l : list A) :
  drop (n `min` length l) l = drop n l.
Proof.
  destruct (Nat.le_ge_cases n (length l)).
  - by rewrite Nat.min_l.
  - rewrite Nat.min_r by done. by rewrite !drop_ge.
Qed.

Lemma length_xor_cyclic (L : nat) (digest : list Z) :
  forall pos key, length (xor_cyclic L pos digest key) = length key.
Proof.
  induction digest as [|d ds IH]; intros pos key; simpl; [done|].
  by rewrite IH, length_alter.
Qed.

Lemma hash_loop_reference (cbKey : Z) (pszKey : list Z) :
  0 < cbKey ->
  forall (pabKey : list Z) (pos : nat),
    length pabKey = Z.to_nat cbKey ->
    (pos < Z.to_nat cbKey)%nat ->
    hash_loop cbKey pszKey pabKey (Z.of_nat pos)
    = Some (foldl (derive_step (Z.to_nat cbKey)) (pabKey, pos) (chunks pszKey)).1.
Proof.
  intros Hpos.
  remember (length pszKey) as n eqn:Hn. revert pszKey Hn.
  induction n as [n IH] using lt_wf_ind.
  intros pszKey Hn pabKey pos Hlen Hlt.
  destruct pszKey as [|c s]; simp hash_loop chunks; [done|].
  rewrite take_min_length.
  pose proof (xor_digest_cyclic (sha (pabKey ++ take SHA_DIGESTSIZE (c :: s)))
                cbKey Hpos pabKey pos Hlen) as Hx.
  rewrite (Nat.mod_small pos) in Hx by done. rewrite Hx. clear Hx.
  cbn [hash_loop_unfold_clause_2 foldl derive_step fst snd].
  rewrite drop_min_length, sha_length.
  unfold derive_step at 2. cbn [fst snd].
  apply (IH (length (drop SHA_DIGESTSIZE (c :: s)))); [|done|..].
  - subst n. rewrite length_drop. unfold SHA_DIGESTSIZE. simpl. lia.
  - by rewrite length_xor_cyclic.
  - apply Nat.mod_upper_bound. lia.
Qed.

(** C4 (amended).  For every passphrase and every key length of at least
    one byte, [coreHashKey] returns success with exactly the key of the
    reference algorithm: zero bytes at first, then, chunk by chunk of at
    most [SHA_DIGESTSIZE] bytes, the digest of (buffer + chunk) XORed into
    the buffer cyclically from where the previous chunk ended; and the
    empty passphrase leaves the key all zero. *)
Theorem coreHashKey_reference (pszKey : list Z) (cbKey : Z) :
  0 < cbKey ->
  coreHashKey pszKey cbKey = Some (CORERC_OK, deriveKey pszKey (Z.to_nat cbKey))
  /\ coreHashKey [] cbKey = Some (CORERC_OK, replicate (Z.to_nat cbKey) 0).
Proof.
  intros Hpos. unfold coreHashKey, deriveKey.
  destruct (Z.ltb_spec cbKey 0) as [?|_]; [lia|]. split.
  - change 0 with (Z.of_nat 0) at 2.
    rewrite hash_loop_reference; [done|done|by rewrite length_replicate|lia].
  - by simp hash_loop.
Qed.

End KeyDerivationFacts.


(** ** The world *)

(** What a computation leaves of the world alone. *)
Definition same_store (w w' : World) : Prop :=
  files w' = files w /\ secure_blocks w' = secure_blocks w
  /\ fresh w' = fresh w /\ entropy w' = entropy w.

Lemma same_store_refl (w : World) : same_store w w.
Proof. by repeat split. Qed.

Lemma same_store_trans (w1 w2 w3 : World) :
  same_store w1 w2 -> same_store w2 w3 -> same_store w1 w3.
Proof. intros (?&?&?&?) (?&?&?&?). repeat split; congruence. Qed.

Lemma fault_same_store (w w' : World) (b : bool) :
  fault w = Some (b, w') -> same_store w w'.
Proof.
  unfold fault. destruct (faults w); intros; simplify_eq; by repeat split.
Qed.

Lemma fopen_r_same_store (path : string) (w w' : World) (o : option (list Z)) :
  fopen_r path w = Some (o, w') -> same_store w w'.
Proof.
  unfold fopen_r, bind. destruct (fault w) as [[b w1]|] eqn:Hf; [|done].
  intros; simplify_eq. by eapply fault_same_store.
Qed.

Lemma fopen_r_Some (path : string) (w w' : World) (file : list Z) :
  fopen_r path w = Some (Some file, w') -> files w !! path = Some file.
Proof.
  unfold fopen_r, bind. destruct (fault w) as [[b w1]|] eqn:Hf; [|done].
  apply fault_same_store in Hf as (Hfiles&_). intros; simplify_eq.
  destruct b; [done|]. congruence.
Qed.

Lemma fclose_same_store (w w' : World) (rc : Z) :
  fclose w = Some (rc, w') -> same_store w w'.
Proof.
  unfold fclose, bind, ret. destruct (fault w) as [[b w1]|] eqn:Hf; [|done].
  intros; simplify_eq. by eapply fault_same_store.
Qed.

Lemma fread_same_store (n : nat) (f : list Z) (w w' : World) (o : option (list Z)) :
  fread n f w = Some (o, w') -> same_store w w'.
Proof.
  unfold fread, bind, ret. destruct (fault w) as [[b w1]|] eqn:Hf; [|done].
  intros; simplify_eq. by eapply fault_same_store.
Qed.

Lemma fread_Some (n : nat) (f b : list Z) (w w' : World) :
  fread n f w = Some (Some b, w') -> b = take n f /\ (n <= length f)%nat.
Proof.
  unfold fread, bind, ret. destruct (fault w) as [[x w1]|]; [|done].
  intros; simplify_eq. destruct x; [done|].
  destruct (Nat.ltb_spec (length f) n); simplify_eq/=. split; [done|lia].
Qed.

Lemma sysAllocSecureMem_true (w w' : World) :
  sysAllocSecureMem w = Some (true, w') ->
  files w' = files w /\ secure_blocks w' = S (secure_blocks w)
  /\ fresh w' = fresh w /\ entropy w' = entropy w.
Proof.
  unfold sysAllocSecureMem, bind, ret.
  destruct (fault w) as [[b w1]|] eqn:Hf; [|done].
  apply fault_same_store in Hf as (?&?&?&?).
  destruct b; intros; simplify_eq/=. repeat split; congruence.
Qed.

(** ** The registry *)

(** No match: no descriptor of the registry has the identifier. *)
Lemma find_cipher_None (papCipher : list Cipher) (id : list Z) :
  find_cipher papCipher id = None <-> Forall (fun c => pszID c <> id) papCipher.
Proof.
  induction papCipher as [|c rest IH]; simpl; [by split; [constructor|]|].
  case_bool_decide as Hc.
  - split; [done|]. by inversion 1.
  - rewrite IH. split; [by constructor|by inversion 1].
Qed.

(** First match wins: the descriptor found is the first of the registry
    whose identifier is equal, byte for byte. *)
Lemma find_cipher_Some (papCipher : list Cipher) (id : list Z) (c : Cipher) :
  find_cipher papCipher id = Some c <->
  exists before after,
    papCipher = before ++ c :: after /\ pszID c = id
    /\ Forall (fun c' => pszID c' <> id) before.
Proof.
  induction papCipher as [|c0 rest IH]; simpl.
  - split; [done|]. by intros ([|??]&?&?&_).
  - case_bool_decide as Hc.
    + split.
      * intros [= <-]. by exists [], rest.
      * intros ([|c1 before]&after&Heq&Hid&Hall); simplify_eq/=; [done|].
        inversion Hall; simplify_eq.
    + rewrite IH. split.
      * intros (before&after&->&Hid&Hall). exists (c0 :: before), after.
        repeat split; [done|by constructor].
      * intros ([|c1 before]&after&Heq&Hid&Hall); simplify_eq/=.
        exists before, after. by inversion Hall.
Qed.

(** ** The plaintext header *)

Section HeaderFacts.
Context `{Config}.

Lemma header_loop_eq (file : list Z) (st : HeaderScan) :
  header_loop file st =
  match fgets 256 file with
  | None => Some st
  | Some (szLine, file') =>
      match header_line szLine st with
      | None => None
      | Some st' => header_loop file' st'
      end
  end.
Proof.
  funelim (header_loop file st);
    repeat match goal with
           | E : fgets _ _ = _ |- _ => rewrite E
           | E : header_line _ _ = _ |- _ => rewrite E
           end; done.
Qed.

Lemma read_lines_eq (file : list Z) :
  read_lines file =
  match fgets 256 file with
  | None => []
  | Some (szLine, file') => szLine :: read_lines file'
  end.
Proof.
  funelim (read_lines file);
    repeat match goal with E : fgets _ _ = _ |- _ => rewrite E end; done.
Qed.

Lemma sscanf_cipher_flags (szValue : list Z) (st st' : HeaderScan) (k : Z) :
  sscanf_cipher szValue st = Some (k, st') -> scanFlags st' = scanFlags st.
Proof.
  unfold sscanf_cipher. intros Hs.
  repeat case_match; simplify_eq; done.
Qed.

Lemma str_cipher_not_use_cbc : str "cipher" <> str "use-cbc".
Proof. discriminate. Qed.

(** One line changes the flags as its [use-cbc] reading says. *)
Lemma header_line_flags (szLine : list Z) (st st' : HeaderScan) :
  header_line szLine st = Some st' ->
  scanFlags st' = from_option (fun b => set_cbc b (scanFlags st)) (scanFlags st)
                    (use_cbc_of_line szLine).
Proof.
  unfold header_line, use_cbc_of_line, set_cbc.
  destruct (sscanf_name_value (cstr szLine)) as [[n szName] szValue].
  destruct (n =? 2); cbn [negb andb]; [|by intros [= <-]].
  destruct (decide (szName = str "cipher")) as [->|Hc].
  - rewrite bool_decide_eq_true_2 by done.
    rewrite (bool_decide_eq_false_2 _ str_cipher_not_use_cbc).
    destruct (sscanf_cipher szValue st) as [[k st1]|] eqn:Hs; [|done].
    apply sscanf_cipher_flags in Hs.
    destruct (negb (k =? 3)); intros [= <-]; done.
  - rewrite (bool_decide_eq_false_2 _ Hc).
    case_bool_decide; [|by intros [= <-]].
    case_bool_decide; by intros [= <-].
Qed.

Lemma set_cbc_absorb (b b' : bool) (flags : Z) :
  set_cbc b (set_cbc b' flags) = set_cbc b flags.
Proof.
  unfold set_cbc. apply Z.bits_inj'. intros i Hi.
  destruct b, b';
    rewrite ?Z.lor_spec, ?Z.land_spec, ?Z.lnot_spec, ?Z.lor_spec, ?Z.land_spec,
      ?Z.lnot_spec by done;
    destruct (Z.testbit flags i), (Z.testbit CCRYPT_USE_CBC i); done.
Qed.

Lemma foldl_set_cbc (bs : list bool) (flags : Z) :
  foldl (fun f b => set_cbc b f) flags bs
  = from_option (fun b => set_cbc b flags) flags (last bs).
Proof.
  induction bs as [|b bs IH] using rev_ind; [done|].
  rewrite foldl_app, last_snoc. cbn. rewrite IH.
  destruct (last bs) as [b'|]; cbn; [apply set_cbc_absorb|done].
Qed.

(** The loop leaves the flags as the last [use-cbc] line of the file
    says, and as they were without one. *)
Lemma header_loop_flags (file : list Z) :
  forall st st', header_loop file st = Some st' ->
                 scanFlags st' = cbc_after file (scanFlags st).
Proof.
  unfold cbc_after.
  assert (Hfold : forall st st', header_loop file st = Some st' ->
            scanFlags st' = foldl (fun f b => set_cbc b f) (scanFlags st)
                              (omap use_cbc_of_line (read_lines file))).
  { remember (length file) as n eqn:Hn. revert file Hn.
    induction n as [n IH] using lt_wf_ind. intros file Hn st st'.
    rewrite header_loop_eq, read_lines_eq.
    destruct (fgets 256 file) as [[szLine file']|] eqn:Hg; [|by intros [= <-]].
    destruct (header_line szLine st) as [st1|] eqn:Hl; [|done].
    intros Hloop. apply header_line_flags in Hl.
    eapply IH in Hloop; [|by subst n; eapply fgets_shorter; [|exact Hg]; lia|done].
    rewrite Hloop, Hl. cbn [omap list_omap].
    destruct (use_cbc_of_line szLine); done. }
  intros st st' Hloop. rewrite (Hfold _ _ Hloop), foldl_set_cbc.
  by destruct (last _).
Qed.

(** A line whose name is neither [cipher] nor [use-cbc], and a line that
    does not split into a name and a value, leaves the scan as it was. *)
Lemma header_line_unrecognized (szLine : list Z) (st : HeaderScan) :
  (sscanf_name_value (cstr szLine)).1.1 <> 2
  \/ ((sscanf_name_value (cstr szLine)).1.2 <> str "cipher"
      /\ (sscanf_name_value (cstr szLine)).1.2 <> str "use-cbc") ->
  header_line szLine st = Some st.
Proof.
  unfold header_line.
  destruct (sscanf_name_value (cstr szLine)) as [[n szName] szValue]. cbn.
  intros [Hn|[Hc Hu]].
  - by destruct (Z.eqb_spec n 2).
  - destruct (n =? 2); [|done]. cbn.
    by rewrite (bool_decide_eq_false_2 _ Hc), (bool_decide_eq_false_2 _ Hu).
Qed.

(** A [cipher] line whose value lets [sscanf] convert nothing (it is
    empty or starts with the separator) leaves the scan as it was. *)
Lemma header_line_cipher_no_conversion (szValue : list Z) (st st' : HeaderScan) (k : Z) :
  sscanf_cipher szValue st = Some (k, st') -> k <= 0 -> st' = st.
Proof.
  unfold sscanf_cipher, EOF. intros Hs Hk.
  repeat case_match; simplify_eq; done || lia.
Qed.

End HeaderFacts.

(** ** Opening a superblock *)

Section OpenFacts.
Context `{Collaborators}.

(** [readSuperBlock1] past the opening of the header file hands back the
    caller's parameters with the flags the header loop computed, whatever
    its result. *)
Lemma readSuperBlock1_parms (sb sb' : SuperBlock Volume) (pszKey : list Z)
    (pParms pParms' : CryptedVolumeParms) (papCipher : list Cipher)
    (w w1 w' : World) (szFileName : string) (file : list Z) (cr : CoreResult) :
  file_name (pszBasePath sb) SUPERBLOCK1_NAME = Some szFileName ->
  fopen_r szFileName w = Some (Some file, w1) ->
  readSuperBlock1 sb pszKey pParms papCipher w = Some ((cr, sb', pParms'), w') ->
  exists st,
    header_loop file (mkHeaderScan [] 0 0 (flCryptoFlags pParms)) = Some st
    /\ pParms' = mkParms (scanFlags st) (fReadOnly pParms).
Proof.
  intros Hname Hopen. unfold readSuperBlock1, bind. rewrite Hname, Hopen.
  destruct (header_loop file _) as [st|]; [|done]. cbn [defined ret].
  intros Hr. exists st. split; [done|].
  unfold ret, undefined in Hr.
  repeat case_match; simplify_eq/=; done.
Qed.

(** [readSuperBlock2] and [createVolume] keep the base path and the key. *)
Lemma readSuperBlock2_keeps (sb sb' : SuperBlock Volume)
    (pParms : CryptedVolumeParms) (w w' : World) (cr : CoreResult) :
  readSuperBlock2 sb pParms w = Some ((cr, sb'), w') ->
  pszBasePath sb' = pszBasePath sb /\ pKey sb' = pKey sb /\ pVolume sb' = pVolume sb.
Proof.
  unfold readSuperBlock2, bind, ret, defined, undefined. intros Hr.
  repeat case_match; simplify_eq/=; done.
Qed.

Lemma createVolume_fields (sb sb' : SuperBlock Volume)
    (pParms : CryptedVolumeParms) (w w' : World) (cr : CoreResult) :
  createVolume sb pParms w = Some ((cr, sb'), w') ->
  exists vol, sb' = set_pVolume vol sb.
Proof.
  unfold createVolume, bind, ret, defined, undefined. intros Hr.
  repeat case_match; simplify_eq/=; eauto.
Qed.

(** C1.  When the block is allocated, [readSuperBlock1] succeeds (the
    plaintext header is read, the cipher resolved, the key constructed)
    and the volume opens, but [readSuperBlock2] fails, then
    [coreReadSuperBlock] stores a non-null superblock through
    [ppSuperBlock] and returns the error of [readSuperBlock2]. *)
Theorem degraded_open (base : string) (pszKey : list Z) (papCipher : list Cipher)
    (pParms pParms1 : CryptedVolumeParms) (w w1 w2 w3 w4 : World)
    (sb1 sb2 sb3 : SuperBlock Volume) (crread2 : CoreResult) :
  sysAllocSecureMem w = Some (true, w1) ->
  readSuperBlock1 (fresh_SuperBlock base w1) pszKey pParms papCipher w1
  = Some ((CORERC_OK, sb1, pParms1), w2) ->
  readSuperBlock2 sb1 pParms1 w2 = Some ((crread2, sb2), w3) ->
  failed crread2 = true ->
  createVolume sb2 pParms1 w3 = Some ((CORERC_OK, sb3), w4) ->
  coreReadSuperBlock base pszKey papCipher pParms w
  = Some ((crread2, Some sb3, pParms1), w4).
Proof.
  intros Ha H1 H2 Hf Hv. unfold coreReadSuperBlock, bind, new_SuperBlock.
  rewrite Ha. cbn [negb]. rewrite H1. cbn [failed]. rewrite H2, Hv.
  cbn [failed]. by rewrite Hf.
Qed.

(** C3 (amended).  When the encrypted record is read and decrypted
    without error and the volume opens: a decrypted magic other than
    [SUPERBLOCK2_MAGIC] gives [CORERC_BAD_SUPERBLOCK], whatever the
    version; the canonical magic with a version above [SBV_CURRENT] gives
    [CORERC_BAD_VERSION]; in both cases the superblock, with the decrypted
    magic and version, has been stored through [ppSuperBlock]. *)
Theorem record_validation (base : string) (pszKey : list Z) (papCipher : list Cipher)
    (pParms pParms1 : CryptedVolumeParms) (w w1 w2 w3 w4 : World)
    (sb1 sb2 sb3 : SuperBlock Volume) :
  sysAllocSecureMem w = Some (true, w1) ->
  readSuperBlock1 (fresh_SuperBlock base w1) pszKey pParms papCipher w1
  = Some ((CORERC_OK, sb1, pParms1), w2) ->
  readSuperBlock2 sb1 pParms1 w2 = Some ((CORERC_OK, sb2), w3) ->
  createVolume sb2 pParms1 w3 = Some ((CORERC_OK, sb3), w4) ->
  magic sb3 = magic sb2 /\ version sb3 = version sb2
  /\ (magic sb2 <> SUPERBLOCK2_MAGIC ->
      coreReadSuperBlock base pszKey papCipher pParms w
      = Some ((CORERC_BAD_SUPERBLOCK, Some sb3, pParms1), w4))
  /\ (magic sb2 = SUPERBLOCK2_MAGIC -> SBV_CURRENT < version sb2 ->
      coreReadSuperBlock base pszKey papCipher pParms w
      = Some ((CORERC_BAD_VERSION, Some sb3, pParms1), w4)).
Proof.
  intros Ha H1 H2 Hv.
  destruct (createVolume_fields _ _ _ _ _ _ Hv) as [vol ->].
  split; [done|]. split; [done|].
  unfold coreReadSuperBlock, bind, new_SuperBlock.
  rewrite Ha. cbn [negb]. rewrite H1. cbn [failed]. rewrite H2, Hv.
  cbn [failed set_pVolume magic version]. split.
  - intros Hm. by destruct (Z.eqb_spec (magic sb2) SUPERBLOCK2_MAGIC).
  - intros Hm Hver. rewrite Hm, Z.eqb_refl. cbn [negb].
    by destruct (Z.ltb_spec SBV_CURRENT (version sb2)); [|lia].
Qed.

(** C6.  When the header file is read (the block is allocated, the file
    opens and closes cleanly) and no descriptor of the registry has the
    identifier the header names, [coreReadSuperBlock] returns
    [CORERC_UNKNOWN_CIPHER], leaves null in [*ppSuperBlock], and the block
    it had allocated is released; no file has changed. *)
Theorem unknown_cipher_no_instance (base : string) (pszKey : list Z)
    (papCipher : list Cipher) (pParms : CryptedVolumeParms) (w w1 w2 w3 : World)
    (szFileName : string) (file : list Z) (st : HeaderScan) :
  sysAllocSecureMem w = Some (true, w1) ->
  file_name base SUPERBLOCK1_NAME = Some szFileName ->
  fopen_r szFileName w1 = Some (Some file, w2) ->
  header_loop file (mkHeaderScan [] 0 0 (flCryptoFlags pParms)) = Some st ->
  fclose w2 = Some (0, w3) ->
  Forall (fun c => pszID c <> szCipher st) papCipher ->
  exists w',
    coreReadSuperBlock base pszKey papCipher pParms w
    = Some ((CORERC_UNKNOWN_CIPHER, None,
             mkParms (scanFlags st) (fReadOnly pParms)), w')
    /\ secure_blocks w' = secure_blocks w /\ files w' = files w.
Proof.
  intros Ha Hname Hopen Hloop Hclose Hall. apply find_cipher_None in Hall.
  assert (H1 : readSuperBlock1 (fresh_SuperBlock base w1) pszKey pParms papCipher w1
               = Some ((CORERC_UNKNOWN_CIPHER, fresh_SuperBlock base w1,
                        mkParms (scanFlags st) (fReadOnly pParms)), w3)).
  { unfold readSuperBlock1, bind. cbn [pszBasePath fresh_SuperBlock].
    rewrite Hname, Hopen, Hloop. cbn [defined ret]. rewrite Hclose.
    change (0 =? EOF) with false. cbv iota. by rewrite Hall. }
  unfold coreReadSuperBlock, bind, new_SuperBlock.
  rewrite Ha. cbn [negb]. rewrite H1. cbn [failed sysFreeSecureMem ret].
  eexists. split; [done|]. cbn [secure_blocks files].
  apply sysAllocSecureMem_true in Ha as (Hf1&Hs1&_).
  apply fopen_r_same_store in Hopen as (Hf2&Hs2&_).
  apply fclose_same_store in Hclose as (Hf3&Hs3&_).
  split; [rewrite Hs3, Hs2, Hs1; done|congruence].
Qed.

(** C10.  Once the header file has been opened, whatever
    [coreReadSuperBlock] then returns (an unknown cipher, a key that
    cannot be made, a volume that does not open, or success) and whether
    or not a superblock comes back, the caller's parameters hold the flags
    as the header left them: the CBC bit set or cleared by the last
    [use-cbc] line, the other bits and the read-only flag as before. *)
Theorem parms_mutation_persists (base : string) (pszKey : list Z)
    (papCipher : list Cipher) (pParms pParms' : CryptedVolumeParms)
    (w w1 w2 w' : World) (szFileName : string) (file : list Z)
    (cr : CoreResult) (ppSuperBlock : option (SuperBlock Volume)) :
  sysAllocSecureMem w = Some (true, w1) ->
  file_name base SUPERBLOCK1_NAME = Some szFileName ->
  fopen_r szFileName w1 = Some (Some file, w2) ->
  coreReadSuperBlock base pszKey papCipher pParms w
  = Some ((cr, ppSuperBlock, pParms'), w') ->
  flCryptoFlags pParms' = cbc_after file (flCryptoFlags pParms)
  /\ fReadOnly pParms' = fReadOnly pParms.
Proof.
  intros Ha Hname Hopen. unfold coreReadSuperBlock, bind, new_SuperBlock.
  rewrite Ha. cbn [negb].
  destruct (readSuperBlock1 _ _ _ _ _) as [[[[cr1 sb1] p1] w3]|] eqn:H1; [|done].
  eapply readSuperBlock1_parms in H1 as (st&Hloop&->); [|exact Hname|exact Hopen].
  apply header_loop_flags in Hloop. cbn [scanFlags] in Hloop.
  unfold ret, sysFreeSecureMem. intros Hr.
  repeat case_match; simplify_eq/=; done.
Qed.

(** C9.  When the record file is opened, one full sector is read and the
    file is closed, [readSuperBlock2] returns what the decryption of the
    sector reports, an error included, with the members of the
    superblock taken from the decrypted payload: the four numbers, and
    the label and the description copied in full width with their last
    character forced to NUL. *)
Theorem decrypt_error_still_fills (sb : SuperBlock Volume)
    (pParms : CryptedVolumeParms) (w w1 w2 w3 : World) (szFileName : string)
    (file abSector : list Z) (key : Key) (cr : CoreResult)
    (sector : CryptedSectorData) :
  file_name (pszBasePath sb) SUPERBLOCK2_NAME = Some szFileName ->
  fopen_r szFileName w = Some (Some file, w1) ->
  fread SECTOR_SIZE file w1 = Some (Some abSector, w2) ->
  fclose w2 = Some (0, w3) ->
  pKey sb = Some key ->
  coreDecryptSectorData abSector key (flCryptoFlags pParms) = (cr, sector) ->
  exists sb',
    readSuperBlock2 sb pParms w = Some ((cr, sb'), w3)
    /\ magic sb' = bytesToInt32 (slice off_magic 4 (payload sector))
    /\ version sb' = bytesToInt32 (slice off_version 4 (payload sector))
    /\ flFlags sb' = bytesToInt32 (slice off_flFlags 4 (payload sector))
    /\ idRoot sb' = bytesToInt32 (slice off_idRoot 4 (payload sector))
    /\ length (szLabel sb') = sizeof_szLabel
    /\ szLabel sb' !! (sizeof_szLabel - 1)%nat = Some 0
    /\ (forall i, (i < sizeof_szLabel - 1)%nat ->
                  szLabel sb' !! i = payload sector !! (off_szLabel + i)%nat)
    /\ length (szDescription sb') = sizeof_szDescription
    /\ szDescription sb' !! (sizeof_szDescription - 1)%nat = Some 0
    /\ (forall i, (i < sizeof_szDescription - 1)%nat ->
                  szDescription sb' !! i
                  = payload sector !! (off_szDescription + i)%nat).
Proof.
  intros Hname Hopen Hread Hclose Hkey Hdec.
  exists (fill_from_payload sb (payload sector)). split.
  { unfold readSuperBlock2, bind. rewrite Hname, Hopen, Hread, Hclose.
    change (0 =? EOF) with false. cbv iota. rewrite Hkey. cbn [defined ret].
    by rewrite Hdec. }
  pose proof (coreDecryptSectorData_payload abSector key (flCryptoFlags pParms)) as Hlen.
  rewrite Hdec in Hlen. cbn [snd] in Hlen.
  pose proof sizeof_szLabel_pos. pose proof sizeof_szDescription_pos.
  pose proof sizeof_SuperBlock2OnDisk_fits.
  assert (Hl : length (slice off_szLabel sizeof_szLabel (payload sector))
               = sizeof_szLabel).
  { unfold slice, off_szLabel. rewrite length_take, length_drop. lia. }
  assert (Hd : length (slice off_szDescription sizeof_szDescription (payload sector))
               = sizeof_szDescription).
  { unfold slice, off_szDescription. rewrite length_take, length_drop. lia. }
  cbn [fill_from_payload magic version flFlags idRoot szLabel szDescription].
  repeat split; try done.
  - by rewrite length_insert.
  - apply list_lookup_insert_eq. lia.
  - intros i Hi. rewrite list_lookup_insert_ne by lia.
    unfold slice. rewrite lookup_take_lt by lia. by rewrite lookup_drop.
  - by rewrite length_insert.
  - apply list_lookup_insert_eq. lia.
  - intros i Hi. rewrite list_lookup_insert_ne by lia.
    unfold slice. rewrite lookup_take_lt by lia. by rewrite lookup_drop.
Qed.

End OpenFacts.

(** ** Writing a superblock *)

Section WriteFacts.
Context `{Collaborators}.

Lemma write_at_length (off : nat) (bytes a a' : list Z) :
  write_at off bytes a = Some a' -> length a' = length a.
Proof.
  unfold write_at. destruct (Nat.leb_spec (off + length bytes) (length a)); [|done].
  intros [= <-]. rewrite !length_app, length_take, length_drop. lia.
Qed.

Lemma write_at_lookup (off : nat) (bytes a a' : list Z) (i : nat) :
  write_at off bytes a = Some a' ->
  a' !! i = if decide (off <= i < off + length bytes)%nat
            then bytes !! (i - off)%nat else a !! i.
Proof.
  unfold write_at. destruct (Nat.leb_spec (off + length bytes) (length a)); [|done].
  intros [= <-]. case_decide as Hi.
  - rewrite lookup_app_r by (rewrite length_take; lia).
    rewrite length_take, Nat.min_l by lia. apply lookup_app_l. lia.
  - destruct (decide (i < off)%nat).
    + rewrite lookup_app_l by (rewrite length_take; lia).
      by apply lookup_take_lt.
    + rewrite lookup_app_r by (rewrite length_take; lia).
      rewrite length_take, Nat.min_l by lia.
      rewrite lookup_app_r by lia. rewrite lookup_drop. f_equal. lia.
Qed.

Lemma cstr_length (a : list Z) : 0 ∈ a -> (length (cstr a) < length a)%nat.
Proof.
  induction a as [|c a IH]; [by inversion 1|].
  simpl. destruct (Z.eqb_spec c 0) as [->|Hc]; [simpl; lia|].
  intros [?|Hin]%elem_of_cons; [done|]. specialize (IH Hin). simpl. lia.
Qed.

Lemma strcpy_src_length (a s : list Z) :
  strcpy_src a = Some s -> (length s <= length a)%nat.
Proof.
  unfold strcpy_src. case_bool_decide as Hin; [|done]. intros [= <-].
  apply cstr_length in Hin. rewrite length_app. simpl. lia.
Qed.

Lemma slice_eq (off n : nat) (p bytes : list Z) :
  length bytes = n ->
  (forall i, (i < n)%nat -> p !! (off + i)%nat = bytes !! i) ->
  slice off n p = bytes.
Proof.
  intros Hlen Hi. unfold slice. apply list_eq. intros i.
  destruct (decide (i < n)%nat).
  - rewrite lookup_take_lt by done. rewrite lookup_drop. by apply Hi.
  - rewrite lookup_take_ge by lia. symmetry. apply lookup_ge_None. lia.
Qed.

(** The payload that is encrypted: the canonical magic and version, the
    flags and the root, whatever the superblock held as magic and
    version; and zero from the end of the record to the end of the
    payload when the two strings sit in arrays of their declared size. *)
Lemma superblock2_payload_layout (sb : SuperBlock Volume) (p : list Z) :
  superblock2_payload sb = Some p ->
  length p = PAYLOAD_SIZE
  /\ slice off_magic 4 p = int32ToBytes SUPERBLOCK2_MAGIC
  /\ slice off_version 4 p = int32ToBytes SBV_CURRENT
  /\ slice off_flFlags 4 p = int32ToBytes (flFlags sb)
  /\ slice off_idRoot 4 p = int32ToBytes (idRoot sb)
  /\ ((length (szLabel sb) <= sizeof_szLabel)%nat ->
      (length (szDescription sb) <= sizeof_szDescription)%nat ->
      forall i, (sizeof_SuperBlock2OnDisk <= i < PAYLOAD_SIZE)%nat -> p !! i = Some 0).
Proof.
  unfold superblock2_payload. intros Hp.
  destruct (write_at off_magic _ _) as [p1|] eqn:H1; [|done].
  cbn [mbind option_bind] in Hp.
  destruct (write_at off_version _ p1) as [p2|] eqn:H2; [|done].
  cbn [mbind option_bind] in Hp.
  destruct (write_at off_flFlags _ p2) as [p3|] eqn:H3; [|done].
  cbn [mbind option_bind] in Hp.
  destruct (write_at off_idRoot _ p3) as [p4|] eqn:H4; [|done].
  cbn [mbind option_bind] in Hp.
  destruct (strcpy_src (szLabel sb)) as [label|] eqn:Hl; [|done].
  cbn [mbind option_bind] in Hp.
  destruct (write_at off_szLabel label p4) as [p5|] eqn:H5; [|done].
  cbn [mbind option_bind] in Hp.
  destruct (strcpy_src (szDescription sb)) as [description|] eqn:Hd; [|done].
  cbn [mbind option_bind] in Hp.
  assert (Hlook : forall i, p !! i =
    if decide (off_szDescription <= i < off_szDescription + length description)%nat
    then description !! (i - off_szDescription)%nat
    else if decide (off_szLabel <= i < off_szLabel + length label)%nat
    then label !! (i - off_szLabel)%nat
    else if decide (off_idRoot <= i < off_idRoot + 4)%nat
    then int32ToBytes (idRoot sb) !! (i - off_idRoot)%nat
    else if decide (off_flFlags <= i < off_flFlags + 4)%nat
    then int32ToBytes (flFlags sb) !! (i - off_flFlags)%nat
    else if decide (off_version <= i < off_version + 4)%nat
    then int32ToBytes SBV_CURRENT !! (i - off_version)%nat
    else if decide (off_magic <= i < off_magic + 4)%nat
    then int32ToBytes SUPERBLOCK2_MAGIC !! (i - off_magic)%nat
    else replicate PAYLOAD_SIZE 0 !! i).
  { intros i.
    rewrite (write_at_lookup _ _ _ _ i Hp), (write_at_lookup _ _ _ _ i H5),
      (write_at_lookup _ _ _ _ i H4), (write_at_lookup _ _ _ _ i H3),
      (write_at_lookup _ _ _ _ i H2), (write_at_lookup _ _ _ _ i H1).
    done. }
  pose proof (strcpy_src_length _ _ Hl). pose proof (strcpy_src_length _ _ Hd).
  unfold off_szDescription, off_szLabel, off_idRoot, off_flFlags, off_version,
    off_magic, sizeof_SuperBlock2OnDisk in *.
  split.
  { rewrite (write_at_length _ _ _ _ Hp), (write_at_length _ _ _ _ H5),
      (write_at_length _ _ _ _ H4), (write_at_length _ _ _ _ H3),
      (write_at_length _ _ _ _ H2), (write_at_length _ _ _ _ H1).
    apply length_replicate. }
  repeat split.
  1-4: apply slice_eq; [done|]; intros i Hi; rewrite Hlook;
       repeat (case_decide; [try lia|]); try lia;
       try (f_equal; lia).
  intros Hll Hld i Hi. rewrite Hlook.
  repeat (case_decide; [lia|]). apply lookup_replicate_2. lia.
Qed.

Lemma fopen_w_Some (path f : string) (w w' : World) :
  fopen_w path w = Some (Some f, w') ->
  f = path /\ files w' = <[path := []]> (files w) /\ entropy w' = entropy w.
Proof.
  unfold fopen_w, bind, ret. destruct (fault w) as [[b w1]|] eqn:Hf; [|done].
  apply fault_same_store in Hf as (Hfiles&_&_&He).
  destruct b; intros; simplify_eq/=. by rewrite Hfiles.
Qed.

Lemma fput_true (file : string) (bytes : list Z) (w w' : World) :
  fput file bytes w = Some (true, w') ->
  files w' = <[file := default [] (files w !! file) ++ bytes]> (files w)
  /\ entropy w' = entropy w.
Proof.
  unfold fput, bind, ret. destruct (fault w) as [[b w1]|] eqn:Hf; [|done].
  apply fault_same_store in Hf as (Hfiles&_&_&He).
  destruct b; intros; simplify_eq/=. by rewrite Hfiles.
Qed.

Lemma fput_entropy (file : string) (bytes : list Z) (w w' : World) (b : bool) :
  fput file bytes w = Some (b, w') -> entropy w' = entropy w.
Proof.
  unfold fput, bind, ret. destruct (fault w) as [[x w1]|] eqn:Hf; [|done].
  apply fault_same_store in Hf as (_&_&_&He).
  destruct x; intros; simplify_eq/=; done.
Qed.

Lemma fopen_w_entropy (path : string) (o : option string) (w w' : World) :
  fopen_w path w = Some (o, w') -> entropy w' = entropy w.
Proof.
  unfold fopen_w, bind, ret. destruct (fault w) as [[x w1]|] eqn:Hf; [|done].
  apply fault_same_store in Hf as (_&_&_&He).
  destruct x; intros; simplify_eq/=; done.
Qed.

Lemma fclose_entropy (rc : Z) (w w' : World) :
  fclose w = Some (rc, w') -> entropy w' = entropy w.
Proof. intros Hc. by apply fclose_same_store in Hc as (_&_&_&?). Qed.

Lemma write_superblock1_entropy (sb : SuperBlock Volume)
    (pParms : CryptedVolumeParms) (cr : CoreResult) (w w' : World) :
  write_superblock1 sb pParms w = Some (cr, w') -> entropy w' = entropy w.
Proof.
  unfold write_superblock1, bind, defined, undefined, ret. intros Hw.
  repeat case_match; simplify_eq;
    repeat match goal with
           | E : fopen_w _ _ = Some _ |- _ => apply fopen_w_entropy in E
           | E : fput _ _ _ = Some _ |- _ => apply fput_entropy in E
           | E : fclose _ = Some _ |- _ => apply fclose_entropy in E
           end; congruence.
Qed.

(** What a successful [coreWriteSuperBlock] has done: the record file
    holds the encryption of the sector made of the random octets drawn
    and of the payload laid out, and the superblock is stamped. *)
Lemma coreWriteSuperBlock_OK (sb sb' : SuperBlock Volume) (flags : Z) (w w' : World) :
  coreWriteSuperBlock sb flags w = Some ((CORERC_OK, sb'), w') ->
  exists vol szFileName p key,
    pVolume sb = Some vol /\ pKey sb = Some key
    /\ file_name (pszBasePath sb) SUPERBLOCK2_NAME = Some szFileName
    /\ superblock2_payload sb = Some p
    /\ files w' !! szFileName
       = Some (coreEncryptSectorData
                 (mkSector (map (entropy w) (seq 0 RANDOM_SIZE)) p) key
                 (flCryptoFlags (coreQueryVolumeParms vol)))
    /\ sb' = stamp sb.
Proof.
  unfold coreWriteSuperBlock, bind.
  destruct (pVolume sb) as [vol|]; [|done]. cbn [defined ret].
  destruct (fReadOnly _); [done|].
  destruct (if Z.land flags CWS_NOWRITE_SUPERBLOCK1 =? 0
            then write_superblock1 sb (coreQueryVolumeParms vol)
            else ret CORERC_OK) as [[cr1 w1]|] eqn:H1; [|done].
  assert (He1 : entropy w1 = entropy w).
  { destruct (_ =? 0); [by eapply write_superblock1_entropy|].
    unfold ret in H1. by simplify_eq. }
  destruct cr1; cbn [failed]; try (unfold ret; by intros [=]).
  destruct (file_name _ _) as [szFileName|]; [|unfold ret; by intros [=]].
  destruct (fopen_w szFileName w1) as [[[file|] w2]|] eqn:Ho;
    [|unfold ret; by intros [=]|done].
  apply fopen_w_Some in Ho as (->&Hf2&He2).
  unfold sysGetRandomBits at 1. rewrite Nat.div_mul by done.
  destruct (superblock2_payload sb) as [p|]; [|done]. cbn [defined ret].
  destruct (pKey sb) as [key|]; [|done]. cbn [defined ret].
  match goal with |- context [fput ?f ?b ?x] =>
    destruct (fput f b x) as [[[|] w3]|] eqn:Hp end; cbn [negb]; [| |done].
  2: { destruct (fclose w3) as [[? ?]|]; unfold ret; by intros [=]. }
  apply fput_true in Hp as (Hf3&_). cbn [files] in Hf3.
  destruct (fclose w3) as [[rc w4]|] eqn:Hc; [|done].
  apply fclose_same_store in Hc as (Hf4&_).
  destruct (rc =? EOF); unfold ret; intros [=]; subst.
  exists vol, szFileName, p, key. repeat split; try done.
  rewrite Hf4, Hf3, Hf2, lookup_insert_eq, lookup_insert_eq. cbn.
  by rewrite He2, He1.
Qed.

(** C5.  On a superblock whose volume parameters are read-only,
    [coreWriteSuperBlock] returns [CORERC_READ_ONLY] whatever the flags,
    and the world is as it was: no call on a file was made, and the two
    files are unmodified. *)
Theorem write_read_only (sb : SuperBlock Volume) (flags : Z) (w : World)
    (vol : Volume) :
  pVolume sb = Some vol ->
  fReadOnly (coreQueryVolumeParms vol) = true ->
  coreWriteSuperBlock sb flags w = Some ((CORERC_READ_ONLY, sb), w).
Proof.
  intros Hv Hro. unfold coreWriteSuperBlock, bind.
  rewrite Hv. cbn [defined ret]. by rewrite Hro.
Qed.

(** C7.  A [coreWriteSuperBlock] that returns [CORERC_OK] has written, as
    the record file, the encryption (under the key of the superblock and
    the flags of the volume) of the sector whose payload is the one laid
    out from the superblock; that payload starts with the canonical magic
    and version, whatever magic and version the superblock held; and the
    superblock handed back has these two members set to the canonical
    constants and the others as before.  A call that returns an error
    hands back the superblock unchanged. *)
Theorem write_stamps_canonical (sb sb' : SuperBlock Volume) (flags : Z)
    (w w' : World) (cr : CoreResult) :
  coreWriteSuperBlock sb flags w = Some ((cr, sb'), w') ->
  (cr = CORERC_OK ->
   magic sb' = SUPERBLOCK2_MAGIC /\ version sb' = SBV_CURRENT /\ sb' = stamp sb
   /\ exists vol key szFileName p,
        pVolume sb = Some vol /\ pKey sb = Some key
        /\ file_name (pszBasePath sb) SUPERBLOCK2_NAME = Some szFileName
        /\ superblock2_payload sb = Some p
        /\ files w' !! szFileName
           = Some (coreEncryptSectorData
                     (mkSector (map (entropy w) (seq 0 RANDOM_SIZE)) p) key
                     (flCryptoFlags (coreQueryVolumeParms vol)))
        /\ slice off_magic 4 p = int32ToBytes SUPERBLOCK2_MAGIC
        /\ slice off_version 4 p = int32ToBytes SBV_CURRENT)
  /\ (cr <> CORERC_OK -> sb' = sb).
Proof.
  intros Hw. split.
  - intros ->. apply coreWriteSuperBlock_OK in Hw
      as (vol&szFileName&p&key&Hvol&Hkey&Hname&Hp&Hfile&->).
    destruct (superblock2_payload_layout _ _ Hp) as (_&Hm&Hv&_).
    repeat split; try done. by exists vol, key, szFileName, p.
  - intros Hcr. revert Hw.
    unfold coreWriteSuperBlock, bind, defined, undefined, ret. intros Hw.
    repeat case_match; simplify_eq; done.
Qed.

(** C2 (amended).  A [coreWriteSuperBlock] that returns [CORERC_OK], on a
    superblock whose label and description sit in arrays of their
    declared size, has written the encryption of a sector whose payload
    is zero from the end of the record to the end of the payload; the
    random octets drawn from [sysGetRandomBits] fill the random field of
    the sector, not its payload. *)
Theorem padding_is_zero (sb sb' : SuperBlock Volume) (flags : Z) (w w' : World) :
  (length (szLabel sb) <= sizeof_szLabel)%nat ->
  (length (szDescription sb) <= sizeof_szDescription)%nat ->
  coreWriteSuperBlock sb flags w = Some ((CORERC_OK, sb'), w') ->
  exists vol key szFileName p,
    pVolume sb = Some vol /\ pKey sb = Some key
    /\ file_name (pszBasePath sb) SUPERBLOCK2_NAME = Some szFileName
    /\ superblock2_payload sb = Some p
    /\ files w' !! szFileName
       = Some (coreEncryptSectorData
                 (mkSector (map (entropy w) (seq 0 RANDOM_SIZE)) p) key
                 (flCryptoFlags (coreQueryVolumeParms vol)))
    /\ length p = PAYLOAD_SIZE
    /\ forall i, (sizeof_SuperBlock2OnDisk <= i < PAYLOAD_SIZE)%nat ->
                 p !! i = Some 0.
Proof.
  intros Hl Hd Hw. apply coreWriteSuperBlock_OK in Hw
    as (vol&szFileName&p&key&Hvol&Hkey&Hname&Hp&Hfile&_).
  destruct (superblock2_payload_layout _ _ Hp) as (Hlen&_&_&_&_&Hpad).
  exists vol, key, szFileName, p. repeat split; try done. by apply Hpad.
Qed.

End WriteFacts.

(** * Further properties of the code *)

(** ** What opening leaves alone, and what it hands back *)

Section OpenMore.
Context `{Collaborators}.

Lemma same_store_eqs (w w' : World) :
  same_store w w' ->
  files w' = files w /\ secure_blocks w' = secure_blocks w.
Proof. by intros (?&?&_). Qed.

(** Turn every call on a stream in the context into what it keeps. *)
Ltac store_facts :=
  repeat match goal with
         | E : fopen_r _ _ = Some _ |- _ => apply fopen_r_same_store in E
         | E : fclose _ = Some _ |- _ => apply fclose_same_store in E
         | E : fread _ _ _ = Some _ |- _ => apply fread_same_store in E
         | E : fault _ = Some _ |- _ => apply fault_same_store in E
         end.

Ltac store_chain :=
  store_facts;
  repeat match goal with
         | E : same_store _ _ |- _ => destruct E as (?&?&?&?)
         end;
  repeat split; congruence.

Lemma readSuperBlock1_same_store (sb sb' : SuperBlock Volume) (pszKey : list Z)
    (pParms pParms' : CryptedVolumeParms) (papCipher : list Cipher)
    (w w' : World) (cr : CoreResult) :
  readSuperBlock1 sb pszKey pParms papCipher w = Some ((cr, sb', pParms'), w') ->
  same_store w w'.
Proof.
  unfold readSuperBlock1, bind, defined, undefined, ret. intros Hr.
  repeat case_match; simplify_eq; store_chain.
Qed.

Lemma readSuperBlock2_same_store (sb sb' : SuperBlock Volume)
    (pParms : CryptedVolumeParms) (w w' : World) (cr : CoreResult) :
  readSuperBlock2 sb pParms w = Some ((cr, sb'), w') -> same_store w w'.
Proof.
  unfold readSuperBlock2, bind, defined, undefined, ret. intros Hr.
  repeat case_match; simplify_eq; store_chain.
Qed.

(** When [readSuperBlock1] succeeds the superblock has its key, and
    nothing else of it has changed. *)
Lemma readSuperBlock1_OK_key (sb sb' : SuperBlock Volume) (pszKey : list Z)
    (pParms pParms' : CryptedVolumeParms) (papCipher : list Cipher)
    (w w' : World) :
  readSuperBlock1 sb pszKey pParms papCipher w
  = Some ((CORERC_OK, sb', pParms'), w') ->
  exists key, sb' = set_pKey key sb.
Proof.
  unfold readSuperBlock1, bind, defined, undefined, ret. intros Hr.
  repeat case_match; simplify_eq; eauto.
  all: match goal with
       | E : cipherResultToCore ?c = CORERC_OK |- _ =>
           destruct c; try discriminate E; done
       end.
Qed.

Lemma fault_total (w : World) :
  exists b w1, fault w = Some (b, w1) /\ same_store w w1 /\ faults w1 = tail (faults w).
Proof.
  unfold fault. destruct (faults w) as [|b fs] eqn:Hf.
  - exists false, w. rewrite Hf. by repeat split.
  - eexists b, _. by repeat split.
Qed.

Lemma sysAllocSecureMem_total (w : World) :
  exists b w1,
    sysAllocSecureMem w = Some (b, w1)
    /\ files w1 = files w /\ faults w1 = tail (faults w)
    /\ secure_blocks w1 = (if b then S (secure_blocks w) else secure_blocks w).
Proof.
  unfold sysAllocSecureMem, bind, ret.
  destruct (fault_total w) as (b&w1&->&(Hf&Hs&_)&Ht).
  destruct b; eexists _, _; (split; [done|]); cbn; by rewrite ?Hf, ?Hs, ?Ht.
Qed.

Lemma fopen_r_missing (path : string) (w : World) :
  files w !! path = None ->
  exists w1, fopen_r path w = Some (None, w1) /\ same_store w w1.
Proof.
  intros Hmissing. unfold fopen_r, bind.
  destruct (fault_total w) as (b&w1&->&Hs&_).
  exists w1. split; [|done]. destruct Hs as (Hf&_). rewrite Hf, Hmissing.
  by destruct b.
Qed.

Lemma fclose_total (w : World) :
  exists rc w1, fclose w = Some (rc, w1) /\ same_store w w1.
Proof.
  unfold fclose, bind, ret.
  destruct (fault_total w) as (b&w1&->&Hs&_). by eexists _, _.
Qed.

(** X1.  Whatever [coreReadSuperBlock] returns, a superblock it stores
    through [ppSuperBlock] has the base path of the call, a key and a
    volume; and a result of [CORERC_OK] comes with such a superblock, whose
    magic is canonical and whose version is not above the current one. *)
Theorem open_result_invariants (base : string) (pszKey : list Z)
    (papCipher : list Cipher) (pParms pParms' : CryptedVolumeParms)
    (w w' : World) (cr : CoreResult) (ppSuperBlock : option (SuperBlock Volume)) :
  coreReadSuperBlock base pszKey papCipher pParms w
  = Some ((cr, ppSuperBlock, pParms'), w') ->
  (forall sb, ppSuperBlock = Some sb ->
              pszBasePath sb = base /\ is_Some (pKey sb) /\ is_Some (pVolume sb))
  /\ (cr = CORERC_OK ->
      exists sb, ppSuperBlock = Some sb /\ magic sb = SUPERBLOCK2_MAGIC
                 /\ version sb <= SBV_CURRENT).
Proof.
  unfold coreReadSuperBlock, bind, new_SuperBlock.
  destruct (sysAllocSecureMem w) as [[[|] w1]|]; cbn [negb];
    [|unfold ret; intros [= <- <- <- <-]; by split|done].
  destruct (readSuperBlock1 _ _ _ _ _) as [[[[cr1 sb1] p1] w2]|] eqn:H1; [|done].
  destruct cr1; cbn [failed sysFreeSecureMem ret];
    try (intros [= <- <- <- <-]; by split).
  apply readSuperBlock1_OK_key in H1 as [key ->].
  destruct (readSuperBlock2 _ _ _) as [[[crread2 sb2] w3]|] eqn:H2; [|done].
  apply readSuperBlock2_keeps in H2 as (Hbase&Hkey&_).
  destruct (createVolume _ _ _) as [[[cr3 sb3] w4]|] eqn:H3; [|done].
  apply createVolume_fields in H3 as [vol ->].
  assert (Hsb : pszBasePath (set_pVolume vol sb2) = base
                /\ is_Some (pKey (set_pVolume vol sb2))
                /\ is_Some (pVolume (set_pVolume vol sb2))).
  { cbn. rewrite Hbase, Hkey. cbn. eauto. }
  destruct cr3; cbn [failed]; try (intros [= <- <- <- <-]; by split).
  destruct (failed crread2) eqn:Hf2.
  { intros [= <- <- <- <-]. split; [by intros ? [= <-]|].
    intros ->. discriminate Hf2. }
  destruct (Z.eqb_spec (magic (set_pVolume vol sb2)) SUPERBLOCK2_MAGIC) as [Hm|Hm];
    cbn [negb]; [|intros [= <- <- <- <-]; split; [by intros ? [= <-]|done]].
  destruct (Z.ltb_spec SBV_CURRENT (version (set_pVolume vol sb2)));
    intros [= <- <- <- <-]; (split; [by intros ? [= <-]|]); [done|].
  intros _. eexists. split; [done|]. split; [done|lia].
Qed.

(** X2.  When the plaintext header file is missing, [coreReadSuperBlock]
    fails with [CORERC_STORAGE] (or with [CORERC_NOT_ENOUGH_MEMORY] when
    the block cannot be allocated), stores null, leaves the caller's
    parameters and all files as they were, and holds no block. *)
Theorem open_missing_header (base : string) (pszKey : list Z)
    (papCipher : list Cipher) (pParms : CryptedVolumeParms) (w : World)
    (szFileName : string) :
  file_name base SUPERBLOCK1_NAME = Some szFileName ->
  files w !! szFileName = None ->
  exists cr w',
    coreReadSuperBlock base pszKey papCipher pParms w
    = Some ((cr, None, pParms), w')
    /\ (cr = CORERC_STORAGE \/ cr = CORERC_NOT_ENOUGH_MEMORY)
    /\ files w' = files w /\ secure_blocks w' = secure_blocks w.
Proof.
  intros Hname Hmissing. unfold coreReadSuperBlock, bind, new_SuperBlock.
  destruct (sysAllocSecureMem_total w) as (b&w1&->&Hf1&_&Hs1).
  destruct b; cbn [negb ret];
    [|eexists _, _; split; [done|]; split; [by right|done]].
  unfold readSuperBlock1, bind. cbn [pszBasePath fresh_SuperBlock].
  rewrite Hname.
  destruct (fopen_r_missing szFileName w1) as (w2&->&Hf2&Hs2&_); [congruence|].
  cbn [ret failed sysFreeSecureMem].
  eexists _, _. split; [done|]. split; [by left|]. cbn.
  split; [congruence|]. by rewrite Hs2, Hs1.
Qed.

(** X3.  When the base path is too long for the name of the header file
    to fit its buffer, [coreReadSuperBlock] fails with
    [CORERC_INVALID_PARAMETER] (or [CORERC_NOT_ENOUGH_MEMORY]) before it
    opens any file: no call on a file is made, null is stored, and the
    parameters are as they were. *)
Theorem open_overlong_path (base : string) (pszKey : list Z)
    (papCipher : list Cipher) (pParms : CryptedVolumeParms) (w : World) :
  (MAX_VOLUME_BASE_PATH_NAME + 128 <= String.length (base +:+ SUPERBLOCK1_NAME))%nat ->
  exists cr w',
    coreReadSuperBlock base pszKey papCipher pParms w
    = Some ((cr, None, pParms), w')
    /\ (cr = CORERC_INVALID_PARAMETER \/ cr = CORERC_NOT_ENOUGH_MEMORY)
    /\ files w' = files w /\ secure_blocks w' = secure_blocks w
    /\ faults w' = tail (faults w).
Proof.
  intros Hlong.
  assert (Hname : file_name base SUPERBLOCK1_NAME = None).
  { unfold file_name, sizeof_szFileName.
    by destruct (Nat.leb_spec (MAX_VOLUME_BASE_PATH_NAME + 128)
                   (String.length (base +:+ SUPERBLOCK1_NAME))); [|lia]. }
  unfold coreReadSuperBlock, bind, new_SuperBlock.
  destruct (sysAllocSecureMem_total w) as (b&w1&->&Hf1&Ht1&Hs1).
  destruct b; cbn [negb ret];
    [|eexists _, _; split; [done|]; split; [by right|done]].
  unfold readSuperBlock1. cbn [pszBasePath fresh_SuperBlock]. rewrite Hname.
  cbn [ret failed sysFreeSecureMem].
  eexists _, _. split; [done|]. split; [by left|]. cbn.
  by rewrite Hs1.
Qed.

(** X4.  When the record file is missing or holds less than one sector,
    [readSuperBlock2] returns [CORERC_STORAGE] and leaves the superblock,
    the files and the allocations as they were. *)
Theorem readSuperBlock2_unreadable (sb : SuperBlock Volume)
    (pParms : CryptedVolumeParms) (w : World) (szFileName : string) :
  file_name (pszBasePath sb) SUPERBLOCK2_NAME = Some szFileName ->
  (files w !! szFileName = None
   \/ exists c, files w !! szFileName = Some c /\ (length c < SECTOR_SIZE)%nat) ->
  exists w',
    readSuperBlock2 sb pParms w = Some ((CORERC_STORAGE, sb), w')
    /\ files w' = files w /\ secure_blocks w' = secure_blocks w.
Proof.
  intros Hname Hfile. unfold readSuperBlock2, bind. rewrite Hname.
  destruct (fopen_r szFileName w) as [[[file|] w1]|] eqn:Ho.
  - pose proof (fopen_r_Some _ _ _ _ Ho) as Hc.
    destruct Hfile as [Hnone|(c&Hsome&Hshort)]; [congruence|].
    assert (file = c) as -> by congruence.
    destruct (fread SECTOR_SIZE c w1) as [[[b|] w2]|] eqn:Hr.
    + apply fread_Some in Hr as [_ Hlen]. lia.
    + destruct (fclose w2) as [[rc w3]|] eqn:Hc3.
      * cbn [ret]. eexists. split; [done|]. store_chain.
      * unfold fclose, bind, fault in Hc3. by destruct (faults w2).
    + unfold fread, bind, fault in Hr. by destruct (faults w1).
  - cbn [ret]. eexists. split; [done|]. store_chain.
  - unfold fopen_r, bind, fault in Ho. by destruct (faults w).
Qed.

(** The two readers never change a file, nor the count of the
    blocks allocated, whatever they return. *)
Lemma readers_keep_files (sb sb1 sb2 : SuperBlock Volume) (pszKey : list Z)
    (pParms pParms1 : CryptedVolumeParms) (papCipher : list Cipher)
    (w w1 w2 : World) (cr1 cr2 : CoreResult) :
  readSuperBlock1 sb pszKey pParms papCipher w = Some ((cr1, sb1, pParms1), w1) ->
  readSuperBlock2 sb1 pParms1 w1 = Some ((cr2, sb2), w2) ->
  files w2 = files w /\ secure_blocks w2 = secure_blocks w.
Proof.
  intros H1 H2. apply readSuperBlock1_same_store in H1.
  apply readSuperBlock2_same_store in H2.
  apply same_store_eqs. by eapply same_store_trans.
Qed.

Lemma cipherResultToCore_OK (cr : CipherResult) :
  cipherResultToCore cr = CORERC_OK <-> cr = CIPHERRC_OK.
Proof. by destruct cr. Qed.

(** The run of [readSuperBlock1] past the header, for the descriptor
    that the scan of the registry stops at. *)
Lemma readSuperBlock1_run (sb : SuperBlock Volume) (pszKey : list Z)
    (pParms : CryptedVolumeParms) (papCipher : list Cipher) (cipher : Cipher)
    (w w1 w2 : World) (szFileName : string) (file : list Z) (st : HeaderScan)
    (cr2 : CipherResult) (key : Key) :
  file_name (pszBasePath sb) SUPERBLOCK1_NAME = Some szFileName ->
  fopen_r szFileName w = Some (Some file, w1) ->
  header_loop file (mkHeaderScan [] 0 0 (flCryptoFlags pParms)) = Some st ->
  fclose w1 = Some (0, w2) ->
  find_cipher papCipher (szCipher st) = Some cipher ->
  0 < cbKey st <= MAX_KEY_SIZE ->
  cryptCreateKey cipher (cbBlock st) (cbKey st)
    (deriveKey pszKey (Z.to_nat (cbKey st))) = (cr2, key) ->
  readSuperBlock1 sb pszKey pParms papCipher w
  = Some ((cipherResultToCore cr2, set_pKey key sb,
           mkParms (scanFlags st) (fReadOnly pParms)), w2).
Proof.
  intros Hname Hopen Hloop Hclose Hfind Hsize Hcreate.
  unfold readSuperBlock1, bind. rewrite Hname, Hopen, Hloop. cbn [defined ret].
  rewrite Hclose. change (0 =? EOF) with false. cbv iota. rewrite Hfind.
  destruct (Z.ltb_spec MAX_KEY_SIZE (cbKey st)) as [?|_]; [lia|].
  unfold coreHashKey.
  destruct (Z.ltb_spec (cbKey st) 0) as [?|_]; [lia|].
  change 0 with (Z.of_nat 0) at 2.
  rewrite hash_loop_reference;
    [|lia|by rewrite length_replicate|lia].
  cbn [defined ret failed]. fold (deriveKey pszKey (Z.to_nat (cbKey st))).
  rewrite Hcreate. by destruct cr2.
Qed.

(** X5.  Once the header is read, [readSuperBlock1] asks the first
    descriptor of the registry that has the identifier of the header for
    a key, with the block size and key size of the header and, as key
    material, the reference derivation of the key phrase at that key
    size; it returns the translation of the cipher's answer and stores
    the key in the superblock. *)
Theorem readSuperBlock1_derived_key (sb : SuperBlock Volume) (pszKey : list Z)
    (pParms : CryptedVolumeParms) (before after : list Cipher) (cipher : Cipher)
    (w w1 w2 : World) (szFileName : string) (file : list Z) (st : HeaderScan)
    (cr2 : CipherResult) (key : Key) :
  file_name (pszBasePath sb) SUPERBLOCK1_NAME = Some szFileName ->
  fopen_r szFileName w = Some (Some file, w1) ->
  header_loop file (mkHeaderScan [] 0 0 (flCryptoFlags pParms)) = Some st ->
  fclose w1 = Some (0, w2) ->
  pszID cipher = szCipher st ->
  Forall (fun c => pszID c <> szCipher st) before ->
  0 < cbKey st <= MAX_KEY_SIZE ->
  cryptCreateKey cipher (cbBlock st) (cbKey st)
    (deriveKey pszKey (Z.to_nat (cbKey st))) = (cr2, key) ->
  readSuperBlock1 sb pszKey pParms (before ++ cipher :: after) w
  = Some ((cipherResultToCore cr2, set_pKey key sb,
           mkParms (scanFlags st) (fReadOnly pParms)), w2).
Proof.
  intros Hname Hopen Hloop Hclose Hid Hbefore Hsize Hcreate.
  apply (readSuperBlock1_run sb pszKey pParms (before ++ cipher :: after) cipher
           w w1 w2 szFileName file st cr2 key); try done.
  apply find_cipher_Some. by exists before, after.
Qed.

(** X6.  When the cipher refuses to make the key, [coreReadSuperBlock]
    returns the translation of the refusal, which is one of
    [CORERC_NOT_ENOUGH_MEMORY], [CORERC_UNKNOWN_CIPHER] and
    [CORERC_MISC_CIPHER] and never [CORERC_OK]; it stores null, and the
    block it had allocated is released. *)
Theorem open_key_refused (base : string) (pszKey : list Z)
    (pParms : CryptedVolumeParms) (before after : list Cipher) (cipher : Cipher)
    (w w0 w1 w2 : World) (szFileName : string) (file : list Z) (st : HeaderScan)
    (cr2 : CipherResult) (key : Key) :
  sysAllocSecureMem w = Some (true, w0) ->
  file_name base SUPERBLOCK1_NAME = Some szFileName ->
  fopen_r szFileName w0 = Some (Some file, w1) ->
  header_loop file (mkHeaderScan [] 0 0 (flCryptoFlags pParms)) = Some st ->
  fclose w1 = Some (0, w2) ->
  pszID cipher = szCipher st ->
  Forall (fun c => pszID c <> szCipher st) before ->
  0 < cbKey st <= MAX_KEY_SIZE ->
  cryptCreateKey cipher (cbBlock st) (cbKey st)
    (deriveKey pszKey (Z.to_nat (cbKey st))) = (cr2, key) ->
  cr2 <> CIPHERRC_OK ->
  exists w',
    coreReadSuperBlock base pszKey (before ++ cipher :: after) pParms w
    = Some ((cipherResultToCore cr2, None,
             mkParms (scanFlags st) (fReadOnly pParms)), w')
    /\ (cipherResultToCore cr2 = CORERC_NOT_ENOUGH_MEMORY
        \/ cipherResultToCore cr2 = CORERC_UNKNOWN_CIPHER
        \/ cipherResultToCore cr2 = CORERC_MISC_CIPHER)
    /\ secure_blocks w' = secure_blocks w /\ files w' = files w.
Proof.
  intros Ha Hname Hopen Hloop Hclose Hid Hbefore Hsize Hcreate Hrefused.
  unfold coreReadSuperBlock, bind, new_SuperBlock. rewrite Ha. cbn [negb].
  rewrite (readSuperBlock1_run (fresh_SuperBlock base w0) pszKey pParms
             (before ++ cipher :: after) cipher w0 w1 w2 szFileName file st cr2 key);
    try done; [|apply find_cipher_Some; by exists before, after].
  assert (Hfailed : failed (cipherResultToCore cr2) = true) by (by destruct cr2).
  rewrite Hfailed. cbn [sysFreeSecureMem ret].
  eexists. split; [done|]. split; [by destruct cr2; auto|]. cbn.
  apply sysAllocSecureMem_true in Ha as (Hf0&Hs0&_).
  apply fopen_r_same_store in Hopen as (Hf1&Hs1&_).
  apply fclose_same_store in Hclose as (Hf2&Hs2&_).
  split; [by rewrite Hs2, Hs1, Hs0|congruence].
Qed.

(** X18.  The key size of the header is not checked before it is used:
    when the header leaves a key size that is negative or above
    [MAX_KEY_SIZE] and names a cipher of the registry, [readSuperBlock1]
    hands [coreHashKey] the buffer [abKey] of [MAX_KEY_SIZE] octets with
    that size, whose [memset] runs outside the buffer; the call has no
    defined result. *)
Theorem key_size_unchecked (sb : SuperBlock Volume) (pszKey : list Z)
    (pParms : CryptedVolumeParms) (papCipher : list Cipher) (cipher : Cipher)
    (w w1 w2 : World) (szFileName : string) (file : list Z) (st : HeaderScan) :
  file_name (pszBasePath sb) SUPERBLOCK1_NAME = Some szFileName ->
  fopen_r szFileName w = Some (Some file, w1) ->
  header_loop file (mkHeaderScan [] 0 0 (flCryptoFlags pParms)) = Some st ->
  fclose w1 = Some (0, w2) ->
  find_cipher papCipher (szCipher st) = Some cipher ->
  cbKey st < 0 \/ MAX_KEY_SIZE < cbKey st ->
  readSuperBlock1 sb pszKey pParms papCipher w = None.
Proof.
  intros Hname Hopen Hloop Hclose Hfind Hsize.
  unfold readSuperBlock1, bind. rewrite Hname, Hopen, Hloop. cbn [defined ret].
  rewrite Hclose. change (0 =? EOF) with false. cbv iota. rewrite Hfind.
  destruct (Z.ltb_spec MAX_KEY_SIZE (cbKey st)) as [?|?]; [done|].
  unfold coreHashKey.
  destruct (Z.ltb_spec (cbKey st) 0) as [?|?]; [done|lia].
Qed.

End OpenMore.

(** ** More on the key derivation *)

Section KeyMore.
Context `{Sha}.

Lemma xor_cyclic_lookup_other (L : nat) (digest : list Z) :
  forall (pos : nat) (key : list Z) (i : nat),
    (forall t, (t < length digest)%nat -> ((pos + t) mod L)%nat <> i) ->
    xor_cyclic L pos digest key !! i = key !! i.
Proof.
  induction digest as [|d ds IH]; intros pos key i Hother; [done|].
  cbn [xor_cyclic]. rewrite IH.
  - apply list_lookup_alter_ne. specialize (Hother 0%nat).
    rewrite Nat.add_0_r in Hother. apply Hother. simpl. lia.
  - intros t Ht. replace (S pos + t)%nat with (pos + S t)%nat by lia.
    apply Hother. simpl. lia.
Qed.

Lemma chunks_length_le (s : list Z) :
  forall n, (length s <= SHA_DIGESTSIZE * n)%nat -> (length (chunks s) <= n)%nat.
Proof.
  remember (length s) as m eqn:Hm. revert s Hm.
  induction m as [m IH] using lt_wf_ind. intros s Hm n Hn.
  destruct s as [|c s]; simp chunks; [simpl; lia|].
  destruct n as [|n]; [simpl in *; lia|]. cbn [length].
  apply le_n_S.
  eapply (IH (length (drop SHA_DIGESTSIZE (c :: s)))); [|done|].
  - subst m. rewrite length_drop. unfold SHA_DIGESTSIZE. simpl. lia.
  - rewrite length_drop. subst m. lia.
Qed.

(** After [j] chunks the key is still zero from octet 20 j on, as long as
    that is inside the key. *)
Lemma derive_zero_suffix (L : nat) (cs : list (list Z)) :
  (0 < L)%nat ->
  forall (j : nat) (st : list Z * nat),
    length st.1 = L ->
    ((SHA_DIGESTSIZE * j <= L)%nat ->
     st.2 = ((SHA_DIGESTSIZE * j) mod L)%nat
     /\ forall i, (SHA_DIGESTSIZE * j <= i < L)%nat -> st.1 !! i = Some 0) ->
    length (foldl (derive_step L) st cs).1 = L
    /\ ((SHA_DIGESTSIZE * (j + length cs) <= L)%nat ->
        forall i, (SHA_DIGESTSIZE * (j + length cs) <= i < L)%nat ->
                  (foldl (derive_step L) st cs).1 !! i = Some 0).
Proof.
  intros HL. induction cs as [|c cs IH]; intros j [key pos] Hlen Hinv.
  - cbn. rewrite Nat.add_0_r. split; [done|]. intros Hj. by apply Hinv.
  - cbn [foldl length]. cbn [fst snd] in *.
    replace (j + S (length cs))%nat with (S j + length cs)%nat by lia.
    apply IH.
    + unfold derive_step. cbn [fst snd]. by rewrite length_xor_cyclic.
    + intros Hj. unfold derive_step. cbn [fst snd].
      destruct Hinv as [-> Hzero]; [lia|].
      assert (Hsmall : (SHA_DIGESTSIZE * j < L)%nat) by (unfold SHA_DIGESTSIZE in *; lia).
      rewrite (Nat.mod_small _ _ Hsmall). split.
      * f_equal. lia.
      * intros i Hi. rewrite xor_cyclic_lookup_other; [apply Hzero; lia|].
        intros t Ht. rewrite sha_length in Ht.
        rewrite Nat.mod_small by lia. lia.
Qed.

(** X7.  A key phrase that fits [n] chunks of 20 characters reaches only
    the first 20 [n] octets of the key: [coreHashKey] returns a key of
    exactly [cbKey] octets whose octets from 20 [n] on are zero. *)
Theorem short_phrase_zero_suffix (pszKey : list Z) (cbKey : Z) (n : nat) :
  0 < cbKey ->
  (length pszKey <= SHA_DIGESTSIZE * n)%nat ->
  exists key,
    coreHashKey pszKey cbKey = Some (CORERC_OK, key)
    /\ length key = Z.to_nat cbKey
    /\ forall i, (SHA_DIGESTSIZE * n <= i < Z.to_nat cbKey)%nat -> key !! i = Some 0.
Proof.
  intros Hpos Hfit. unfold coreHashKey.
  destruct (Z.ltb_spec cbKey 0) as [?|_]; [lia|].
  change 0 with (Z.of_nat 0) at 2.
  rewrite hash_loop_reference; [|done|by rewrite length_replicate|lia].
  eexists. split; [done|].
  pose proof (chunks_length_le pszKey n Hfit) as Hn.
  destruct (derive_zero_suffix (Z.to_nat cbKey) (chunks pszKey) ltac:(lia) 0%nat
              (replicate (Z.to_nat cbKey) 0, 0%nat)) as [Hlen Hzero].
  - cbn. apply length_replicate.
  - intros _. cbn [fst snd]. rewrite Nat.mul_0_r. split.
    + symmetry. apply Nat.Div0.mod_0_l.
    + intros i Hi. apply lookup_replicate_2. lia.
  - split; [done|]. intros i Hi. cbn [Nat.add] in Hzero. apply Hzero.
    + unfold SHA_DIGESTSIZE in *. lia.
    + unfold SHA_DIGESTSIZE in *. lia.
Qed.

Lemma xor_cyclic_fill (L : nat) (digest : list Z) :
  forall (pre post : list Z),
    (length pre + length digest + length post = L)%nat ->
    xor_cyclic L (length pre) digest (pre ++ replicate (length digest) 0 ++ post)
    = pre ++ digest ++ post.
Proof.
  induction digest as [|d ds IH]; intros pre post HL; [done|].
  cbn [xor_cyclic length replicate]. cbn [length] in HL.
  rewrite Nat.mod_small by lia.
  replace (alter (fun k => Z.lxor k d) (length pre)
             (pre ++ (0 :: replicate (length ds) 0) ++ post))
    with ((pre ++ [d]) ++ replicate (length ds) 0 ++ post).
  - replace (S (length pre)) with (length (pre ++ [d]))
      by (rewrite length_app; simpl; lia).
    rewrite IH by (rewrite length_app; simpl; lia).
    by rewrite <- app_assoc.
  - rewrite <- app_assoc. cbn [app].
    pose proof (alter_app_r (fun k => Z.lxor k d) pre
                  (0 :: replicate (length ds) 0 ++ post) 0) as Ha.
    rewrite Nat.add_0_r in Ha. by rewrite Ha.
Qed.

(** X8.  For a key phrase of 1 to 20 characters and a key of at least 20
    octets, the key is the SHA digest of [cbKey] zero octets followed by
    the key phrase, padded with zero octets to [cbKey]. *)
Theorem one_chunk_key (pszKey : list Z) (cbKey : Z) :
  pszKey <> [] ->
  (length pszKey <= SHA_DIGESTSIZE)%nat ->
  Z.of_nat SHA_DIGESTSIZE <= cbKey ->
  coreHashKey pszKey cbKey
  = Some (CORERC_OK,
          sha (replicate (Z.to_nat cbKey) 0 ++ pszKey)
          ++ replicate (Z.to_nat cbKey - SHA_DIGESTSIZE) 0).
Proof.
  intros Hne Hlen Hsize. unfold coreHashKey.
  assert (Hpos : 0 < cbKey) by (unfold SHA_DIGESTSIZE in *; lia).
  destruct (Z.ltb_spec cbKey 0) as [?|_]; [lia|].
  change 0 with (Z.of_nat 0) at 2.
  rewrite hash_loop_reference; [|done|by rewrite length_replicate|lia].
  destruct pszKey as [|c s]; [done|]. simp chunks.
  rewrite take_ge, drop_ge by done. simp chunks.
  cbn [foldl derive_step fst snd].
  set (digest := sha (replicate (Z.to_nat cbKey) 0 ++ c :: s)).
  assert (Hd : length digest = SHA_DIGESTSIZE) by apply sha_length.
  replace (replicate (Z.to_nat cbKey) 0)
    with ([] ++ replicate (length digest) 0
          ++ replicate (Z.to_nat cbKey - SHA_DIGESTSIZE) 0).
  - change 0%nat with (length (@nil Z)) at 1.
    rewrite xor_cyclic_fill; [done|].
    rewrite length_replicate. simpl. lia.
  - cbn [app]. rewrite <- replicate_add. f_equal. lia.
Qed.

End KeyMore.

(** ** Allocation and teardown *)

Section DropFacts.
Context `{Teardown}.

Lemma createVolume_blocks (sb sb' : SuperBlock Volume) (pParms : CryptedVolumeParms)
    (w w' : World) (cr : CoreResult) :
  (forall base key p w0,
      secure_blocks (coreAccessVolume base key p w0).2 = secure_blocks w0) ->
  createVolume sb pParms w = Some ((cr, sb'), w') ->
  secure_blocks w' = secure_blocks w.
Proof.
  intros Hkeep. unfold createVolume, bind, defined, undefined, ret.
  destruct (pKey sb) as [key|]; [|done].
  specialize (Hkeep (pszBasePath sb) key pParms w).
  destruct (coreAccessVolume _ _ _ _) as [[cr' vol] w1].
  intros [= <- <- <-]. done.
Qed.

(** The blocks that [coreReadSuperBlock] leaves allocated. *)
Lemma coreReadSuperBlock_blocks (base : string) (pszKey : list Z)
    (papCipher : list Cipher) (pParms pParms' : CryptedVolumeParms)
    (w w' : World) (cr : CoreResult) (ppSuperBlock : option (SuperBlock Volume)) :
  (forall b key p w0,
      secure_blocks (coreAccessVolume b key p w0).2 = secure_blocks w0) ->
  coreReadSuperBlock base pszKey papCipher pParms w
  = Some ((cr, ppSuperBlock, pParms'), w') ->
  secure_blocks w'
  = match ppSuperBlock with
    | Some _ => S (secure_blocks w)
    | None => secure_blocks w
    end.
Proof.
  intros Hkeep. unfold coreReadSuperBlock, bind, new_SuperBlock.
  destruct (sysAllocSecureMem_total w) as (b&w1&->&_&_&Hs1).
  destruct b; cbn [negb]; [|unfold ret; by intros [= <- <- <- <-]].
  destruct (readSuperBlock1 _ _ _ _ _) as [[[[cr1 sb1] p1] w2]|] eqn:Hr1; [|done].
  apply readSuperBlock1_same_store in Hr1 as (_&Hs2&_).
  destruct (failed cr1); cbn [sysFreeSecureMem ret].
  { intros [= <- <- <- <-]. cbn. by rewrite Hs2, Hs1. }
  destruct (readSuperBlock2 _ _ _) as [[[crread2 sb2] w3]|] eqn:Hr2; [|done].
  apply readSuperBlock2_same_store in Hr2 as (_&Hs3&_).
  destruct (createVolume _ _ _) as [[[cr3 sb3] w4]|] eqn:Hr3; [|done].
  apply (createVolume_blocks _ _ _ _ _ _ Hkeep) in Hr3.
  destruct (failed cr3).
  { intros [= <- <- <- <-]. cbn. by rewrite Hr3, Hs3, Hs2, Hs1. }
  intros Hr.
  assert (ppSuperBlock = Some sb3 /\ w' = w4) as [-> ->].
  { unfold ret in Hr. repeat case_match; by simplify_eq. }
  by rewrite Hr3, Hs3, Hs2, Hs1.
Qed.

(** X9.  If the volume layer keeps the count of blocks, then after
    [coreReadSuperBlock] exactly one more block is allocated when a
    superblock is stored through [ppSuperBlock], and none when null is
    stored: every failing path frees what it allocated. *)
Theorem open_block_accounting (base : string) (pszKey : list Z)
    (papCipher : list Cipher) (pParms pParms' : CryptedVolumeParms)
    (w w' : World) (cr : CoreResult) (ppSuperBlock : option (SuperBlock Volume)) :
  (forall b key p w0,
      secure_blocks (coreAccessVolume b key p w0).2 = secure_blocks w0) ->
  coreReadSuperBlock base pszKey papCipher pParms w
  = Some ((cr, ppSuperBlock, pParms'), w') ->
  secure_blocks w'
  = match ppSuperBlock with
    | Some _ => S (secure_blocks w)
    | None => secure_blocks w
    end.
Proof. apply coreReadSuperBlock_blocks. Qed.

(** X10.  [coreDropSuperBlock] returns what [coreDropVolume] reports.  On
    an error it stops there: the key is not destroyed and the block is
    not freed, the world is as [coreDropVolume] left it.  Otherwise the
    key is destroyed and then exactly one block is freed. *)
Theorem drop_stops_on_volume_error (sb : SuperBlock Volume) (vol : Volume)
    (key : Key) (w w1 : World) (cr : CoreResult) :
  pVolume sb = Some vol ->
  pKey sb = Some key ->
  coreDropVolume vol w = (cr, w1) ->
  exists w',
    coreDropSuperBlock sb w = Some (cr, w')
    /\ (cr <> CORERC_OK -> w' = w1)
    /\ (cr = CORERC_OK ->
        secure_blocks w' = pred (secure_blocks (cryptDestroyKey key w1))
        /\ files w' = files (cryptDestroyKey key w1)).
Proof.
  intros Hvol Hkey Hdrop. unfold coreDropSuperBlock, bind.
  rewrite Hvol. cbn [defined ret]. rewrite Hdrop.
  destruct cr; cbn [failed ret]; try (eexists; split; [done|]; by split).
  rewrite Hkey. cbn [defined ret sysFreeSecureMem].
  eexists. split; [done|]. by split.
Qed.

(** X11.  If the volume layer and the destruction of a key keep the count
    of blocks, a superblock that [coreReadSuperBlock] has stored and that
    [coreDropSuperBlock] then drops with success leaves as many blocks
    allocated as before the open. *)
Theorem open_then_drop (base : string) (pszKey : list Z)
    (papCipher : list Cipher) (pParms pParms' : CryptedVolumeParms)
    (w w' w'' : World) (cr : CoreResult) (sb : SuperBlock Volume) :
  (forall b key p w0,
      secure_blocks (coreAccessVolume b key p w0).2 = secure_blocks w0) ->
  (forall vol w0, secure_blocks (coreDropVolume vol w0).2 = secure_blocks w0) ->
  (forall key w0, secure_blocks (cryptDestroyKey key w0) = secure_blocks w0) ->
  coreReadSuperBlock base pszKey papCipher pParms w
  = Some ((cr, Some sb, pParms'), w') ->
  coreDropSuperBlock sb w' = Some (CORERC_OK, w'') ->
  secure_blocks w'' = secure_blocks w.
Proof.
  intros Haccess Hdropv Hdestroy Hopen Hdrop.
  apply (coreReadSuperBlock_blocks _ _ _ _ _ _ _ _ _ Haccess) in Hopen.
  revert Hdrop. unfold coreDropSuperBlock, bind, defined, undefined, ret.
  destruct (pVolume sb) as [vol|]; [|done].
  specialize (Hdropv vol w').
  destruct (coreDropVolume vol w') as [cr1 w1]. cbn [snd] in Hdropv.
  destruct cr1; cbn [failed]; try (by intros [=]).
  destruct (pKey sb) as [key|]; [|done].
  unfold sysFreeSecureMem. intros [= <-]. cbn.
  by rewrite Hdestroy, Hdropv, Hopen.
Qed.

End DropFacts.

(** ** What writing touches *)

Section WriteMore.
Context `{Collaborators}.

Lemma frame_refl (P : string -> Prop) (w : World) : frame P w w.
Proof. by split. Qed.

Lemma frame_trans (P : string -> Prop) (w1 w2 w3 : World) :
  frame P w1 w2 -> frame P w2 w3 -> frame P w1 w3.
Proof.
  intros [Hs1 Hf1] [Hs2 Hf2]. split; [congruence|].
  intros q Hq. by rewrite Hf2, Hf1.
Qed.

Lemma same_store_frame (P : string -> Prop) (w w' : World) :
  same_store w w' -> frame P w w'.
Proof. intros (Hf&Hs&_). split; [done|]. intros q _. by rewrite Hf. Qed.

Lemma frames_ret {A} (P : string -> Prop) (a : A) : frames P (ret a).
Proof. intros w a' w' [= <- <-]. apply frame_refl. Qed.

Lemma frames_defined {A} (P : string -> Prop) (o : option A) : frames P (defined o).
Proof. destruct o; [apply frames_ret|]. by intros w a w'. Qed.

Lemma frames_bind {A B} (P : string -> Prop) (m : M A) (k : A -> M B) :
  frames P m -> (forall a, frames P (k a)) -> frames P (bind m k).
Proof.
  intros Hm Hk w b w'. unfold bind.
  destruct (m w) as [[a w1]|] eqn:E; [|done].
  intros Hb. eapply frame_trans; [by eapply Hm|by eapply Hk].
Qed.

Lemma frames_fclose (P : string -> Prop) : frames P fclose.
Proof. intros w rc w' Hc. apply same_store_frame. by eapply fclose_same_store. Qed.

Lemma frames_fput (P : string -> Prop) (file : string) (bytes : list Z) :
  P file -> frames P (fput file bytes).
Proof.
  intros HP w b w'. unfold fput, bind, ret.
  destruct (fault w) as [[x w1]|] eqn:Hf; [|done].
  apply fault_same_store in Hf as (Hfiles&Hs&_).
  destruct x; intros [= <- <-]; (split; [done|]); intros q Hq; cbn.
  - by rewrite Hfiles.
  - rewrite lookup_insert_ne by (by intros ->). by rewrite Hfiles.
Qed.

Lemma frames_sysGetRandomBits (P : string -> Prop) (n : nat) :
  frames P (sysGetRandomBits n).
Proof. intros w a w' [= <- <-]. by split. Qed.

(** The stream that [fopen_w] hands out is the file of that path. *)
Lemma frames_fopen_w_bind {B} (P : string -> Prop) (path : string)
    (k : option string -> M B) :
  P path -> frames P (k None) -> frames P (k (Some path)) ->
  frames P (bind (fopen_w path) k).
Proof.
  intros HP Hnone Hsome w b w'. unfold bind.
  destruct (fopen_w path w) as [[[f|] w1]|] eqn:Ho; [| |done].
  - pose proof Ho as Ho'. apply fopen_w_Some in Ho' as (->&Hfiles&_).
    intros Hk. eapply frame_trans; [|by eapply Hsome]. split.
    + revert Ho. unfold fopen_w, bind, ret.
      destruct (fault w) as [[x w2]|] eqn:Hf; [|done].
      apply fault_same_store in Hf as (_&Hs&_).
      destruct x; intros [= <-]. by cbn.
    + intros q Hq. rewrite Hfiles. apply lookup_insert_ne. by intros ->.
  - intros Hk. eapply frame_trans; [|by eapply Hnone].
    revert Ho. unfold fopen_w, bind, ret.
    destruct (fault w) as [[x w2]|] eqn:Hf; [|done].
    apply fault_same_store in Hf. destruct x; intros [= <-].
    by apply same_store_frame.
Qed.

Lemma file_name_Some (base name s : string) :
  file_name base name = Some s -> s = base +:+ name.
Proof. unfold file_name. case_match; by intros [= <-]. Qed.

Ltac frames_step :=
  first
    [ apply frames_ret
    | apply frames_defined
    | apply frames_fclose
    | apply frames_sysGetRandomBits
    | apply frames_fput; auto
    | apply frames_fopen_w_bind; [auto| |]
    | apply frames_bind; [|intros ?]
    | match goal with
      | |- frames _ (if ?x then _ else _) => destruct x
      | |- frames _ (match ?x with _ => _ end) => destruct x eqn:?
      end ].

Lemma frames_write_superblock1 (sb : SuperBlock Volume) (pParms : CryptedVolumeParms) :
  frames (fun q => q = pszBasePath sb +:+ SUPERBLOCK1_NAME)
    (write_superblock1 sb pParms).
Proof.
  unfold write_superblock1.
  destruct (file_name _ _) as [szFileName|] eqn:Hname; [|apply frames_ret].
  apply file_name_Some in Hname as ->.
  repeat frames_step.
Qed.

(** X12.  [coreWriteSuperBlock] changes no file other than the header
    file and the record file of the superblock's base path, whatever it
    returns, and allocates and frees no block. *)
Theorem write_touches_only_its_files (sb sb' : SuperBlock Volume) (flags : Z)
    (w w' : World) (cr : CoreResult) (q : string) :
  coreWriteSuperBlock sb flags w = Some ((cr, sb'), w') ->
  q <> pszBasePath sb +:+ SUPERBLOCK1_NAME ->
  q <> pszBasePath sb +:+ SUPERBLOCK2_NAME ->
  files w' !! q = files w !! q /\ secure_blocks w' = secure_blocks w.
Proof.
  intros Hw Hq1 Hq2.
  assert (Hframes : frames (fun q => q = pszBasePath sb +:+ SUPERBLOCK1_NAME
                                     \/ q = pszBasePath sb +:+ SUPERBLOCK2_NAME)
                      (coreWriteSuperBlock sb flags)).
  { unfold coreWriteSuperBlock.
    apply frames_bind; [apply frames_defined|intros vol].
    destruct (fReadOnly _); [apply frames_ret|].
    apply frames_bind.
    { destruct (_ =? 0); [|apply frames_ret].
      intros w0 a w1 Hw1. apply frames_write_superblock1 in Hw1 as [Hs Hf].
      split; [done|]. intros q' Hq'. apply Hf. tauto. }
    intros cr1. destruct (failed cr1); [apply frames_ret|].
    destruct (file_name _ _) as [szFileName|] eqn:Hname; [|apply frames_ret].
    apply file_name_Some in Hname as ->.
    repeat frames_step. }
  destruct (Hframes _ _ _ Hw) as [Hs Hf]. split; [|done]. apply Hf. tauto.
Qed.

(** X13.  With [CWS_NOWRITE_SUPERBLOCK1] in the flags, [coreWriteSuperBlock]
    changes no file but the record file: the header file is as it
    was, whatever the call returns. *)
Theorem nowrite_keeps_header (sb sb' : SuperBlock Volume) (flags : Z)
    (w w' : World) (cr : CoreResult) (q : string) :
  Z.land flags CWS_NOWRITE_SUPERBLOCK1 <> 0 ->
  coreWriteSuperBlock sb flags w = Some ((cr, sb'), w') ->
  q <> pszBasePath sb +:+ SUPERBLOCK2_NAME ->
  files w' !! q = files w !! q.
Proof.
  intros Hflag Hw Hq.
  assert (Hframes : frames (fun q => q = pszBasePath sb +:+ SUPERBLOCK2_NAME)
                      (coreWriteSuperBlock sb flags)).
  { unfold coreWriteSuperBlock.
    apply frames_bind; [apply frames_defined|intros vol].
    destruct (fReadOnly _); [apply frames_ret|].
    destruct (Z.eqb_spec (Z.land flags CWS_NOWRITE_SUPERBLOCK1) 0); [done|].
    apply frames_bind; [apply frames_ret|].
    intros cr1. destruct (failed cr1); [apply frames_ret|].
    destruct (file_name _ _) as [szFileName|] eqn:Hname; [|apply frames_ret].
    apply file_name_Some in Hname as ->.
    repeat frames_step. }
  destruct (Hframes _ _ _ Hw) as [_ Hf]. by apply Hf.
Qed.

(** X14.  When the header part of the write fails, [coreWriteSuperBlock]
    returns that error at once: the superblock is unchanged and no file
    but the header file has been touched, so the record file is as it
    was. *)
Theorem header_failure_spares_record (sb : SuperBlock Volume) (flags : Z)
    (w w1 : World) (vol : Volume) (cr1 : CoreResult) (q : string) :
  pVolume sb = Some vol ->
  fReadOnly (coreQueryVolumeParms vol) = false ->
  Z.land flags CWS_NOWRITE_SUPERBLOCK1 = 0 ->
  write_superblock1 sb (coreQueryVolumeParms vol) w = Some (cr1, w1) ->
  cr1 <> CORERC_OK ->
  coreWriteSuperBlock sb flags w = Some ((cr1, sb), w1)
  /\ (q <> pszBasePath sb +:+ SUPERBLOCK1_NAME -> files w1 !! q = files w !! q).
Proof.
  intros Hvol Hro Hflag Hw1 Hcr. split.
  - unfold coreWriteSuperBlock, bind. rewrite Hvol. cbn [defined ret].
    rewrite Hro, Hflag. cbn. rewrite Hw1. by destruct cr1.
  - intros Hq. apply frames_write_superblock1 in Hw1 as [_ Hf]. by apply Hf.
Qed.

End WriteMore.

(** ** Formatted output read back by formatted input *)

Section ScanFacts.












End ScanFacts.

(** ** The header that is written, read back *)

Section HeaderRoundTrip.
Context `{Collaborators}.










Lemma coreWriteSuperBlock_halves (sb : SuperBlock Volume) (flags : Z) :
  coreWriteSuperBlock sb flags
  = (let* vol := defined (pVolume sb) in
     if fReadOnly (coreQueryVolumeParms vol) then ret (CORERC_READ_ONLY, sb) else
     let* cr := (if Z.land flags CWS_NOWRITE_SUPERBLOCK1 =? 0
                 then write_superblock1 sb (coreQueryVolumeParms vol)
                 else ret CORERC_OK) in
     if failed cr then ret (cr, sb)
     else write_superblock2 sb (coreQueryVolumeParms vol)).
Proof. reflexivity. Qed.




End HeaderRoundTrip.

(** ** The record written and read back *)

Section RecordRoundTrip.
Context `{Collaborators}.

Lemma fault_quiet (w : World) : faults w = [] -> fault w = Some (false, w).
Proof. unfold fault. by intros ->. Qed.

Lemma fopen_r_quiet (path : string) (w : World) :
  faults w = [] -> fopen_r path w = Some (files w !! path, w).
Proof. intros Hq. unfold fopen_r, bind. by rewrite (fault_quiet w Hq). Qed.

Lemma fread_quiet (n : nat) (stream : list Z) (w : World) :
  faults w = [] ->
  fread n stream w
  = Some (if (length stream <? n)%nat then None else Some (take n stream), w).
Proof. intros Hq. unfold fread, bind. by rewrite (fault_quiet w Hq). Qed.

Lemma fclose_quiet (w : World) : faults w = [] -> fclose w = Some (0, w).
Proof. intros Hq. unfold fclose, bind. by rewrite (fault_quiet w Hq). Qed.

Lemma cstr_Forall (a : list Z) : Forall (fun c => c <> 0) (cstr a).
Proof.
  induction a as [|c a IH]; simpl; [constructor|].
  destruct (Z.eqb_spec c 0); by constructor.
Qed.

Lemma cstr_app_NUL (s r : list Z) :
  Forall (fun c => c <> 0) s -> cstr (s ++ 0 :: r) = s.
Proof.
  induction 1 as [|c s Hc _ IH]; simpl; [done|].
  destruct (Z.eqb_spec c 0); [done|]. by rewrite IH.
Qed.

Lemma bytesToInt32_int32ToBytes (x : Z) :
  bytesToInt32 (int32ToBytes x) = x `mod` 2 ^ 32.
Proof.
  unfold bytesToInt32, int32ToBytes. rewrite !Z.mod_mod by lia.
  change (2 ^ 32) with 4294967296. Z.div_mod_to_equations. lia.
Qed.

(** A string member of the payload: the characters of the string, then
    zeros up to the size of the array. *)
Lemma superblock2_payload_strings (sb : SuperBlock Volume) (p : list Z) :
  superblock2_payload sb = Some p ->
  (length (szLabel sb) <= sizeof_szLabel)%nat ->
  (length (szDescription sb) <= sizeof_szDescription)%nat ->
  (length (cstr (szLabel sb)) < sizeof_szLabel)%nat
  /\ (length (cstr (szDescription sb)) < sizeof_szDescription)%nat
  /\ slice off_szLabel sizeof_szLabel p
     = cstr (szLabel sb)
       ++ replicate (sizeof_szLabel - length (cstr (szLabel sb))) 0
  /\ slice off_szDescription sizeof_szDescription p
     = cstr (szDescription sb)
       ++ replicate (sizeof_szDescription - length (cstr (szDescription sb))) 0.
Proof.
  unfold superblock2_payload. intros Hp Hll Hld.
  destruct (write_at off_magic _ _) as [p1|] eqn:H1; [|done].
  cbn [mbind option_bind] in Hp.
  destruct (write_at off_version _ p1) as [p2|] eqn:H2; [|done].
  cbn [mbind option_bind] in Hp.
  destruct (write_at off_flFlags _ p2) as [p3|] eqn:H3; [|done].
  cbn [mbind option_bind] in Hp.
  destruct (write_at off_idRoot _ p3) as [p4|] eqn:H4; [|done].
  cbn [mbind option_bind] in Hp.
  destruct (strcpy_src (szLabel sb)) as [label|] eqn:Hl; [|done].
  cbn [mbind option_bind] in Hp.
  destruct (write_at off_szLabel label p4) as [p5|] eqn:H5; [|done].
  cbn [mbind option_bind] in Hp.
  destruct (strcpy_src (szDescription sb)) as [description|] eqn:Hd; [|done].
  cbn [mbind option_bind] in Hp.
  assert (Hlook : forall i, p !! i =
    if decide (off_szDescription <= i < off_szDescription + length description)%nat
    then description !! (i - off_szDescription)%nat
    else if decide (off_szLabel <= i < off_szLabel + length label)%nat
    then label !! (i - off_szLabel)%nat
    else if decide (off_idRoot <= i < off_idRoot + 4)%nat
    then int32ToBytes (idRoot sb) !! (i - off_idRoot)%nat
    else if decide (off_flFlags <= i < off_flFlags + 4)%nat
    then int32ToBytes (flFlags sb) !! (i - off_flFlags)%nat
    else if decide (off_version <= i < off_version + 4)%nat
    then int32ToBytes SBV_CURRENT !! (i - off_version)%nat
    else if decide (off_magic <= i < off_magic + 4)%nat
    then int32ToBytes SUPERBLOCK2_MAGIC !! (i - off_magic)%nat
    else replicate PAYLOAD_SIZE 0 !! i).
  { intros i.
    rewrite (write_at_lookup _ _ _ _ i Hp), (write_at_lookup _ _ _ _ i H5),
      (write_at_lookup _ _ _ _ i H4), (write_at_lookup _ _ _ _ i H3),
      (write_at_lookup _ _ _ _ i H2), (write_at_lookup _ _ _ _ i H1).
    done. }
  unfold strcpy_src in Hl, Hd.
  case_bool_decide as Hinl; [|done]. case_bool_decide as Hind; [|done].
  apply cstr_length in Hinl, Hind.
  injection Hl as <-. injection Hd as <-.
  pose proof sizeof_SuperBlock2OnDisk_fits as Hfits.
  unfold off_szDescription, off_szLabel, off_idRoot, off_flFlags, off_version,
    off_magic in *.
  rewrite !length_app in Hlook. cbn [length] in Hlook.
  split; [lia|]. split; [lia|].
  split.
  - apply slice_eq; [rewrite length_app, length_replicate; lia|].
    intros i Hi. rewrite Hlook.
    case_decide; [lia|]. case_decide.
    + replace (16 + i - 16)%nat with i by lia.
      destruct (decide (i < length (cstr (szLabel sb)))%nat).
      * by rewrite !lookup_app_l by lia.
      * rewrite !lookup_app_r by lia.
        replace (i - length (cstr (szLabel sb)))%nat with 0%nat by lia.
        symmetry. apply lookup_replicate_2. lia.
    + repeat (case_decide; [lia|]).
      rewrite lookup_app_r by lia.
      rewrite !lookup_replicate_2 by lia. done.
  - apply slice_eq; [rewrite length_app, length_replicate; lia|].
    intros i Hi. rewrite Hlook.
    case_decide.
    + replace (16 + sizeof_szLabel + i - (16 + sizeof_szLabel))%nat with i by lia.
      destruct (decide (i < length (cstr (szDescription sb)))%nat).
      * by rewrite !lookup_app_l by lia.
      * rewrite !lookup_app_r by lia.
        replace (i - length (cstr (szDescription sb)))%nat with 0%nat by lia.
        symmetry. apply lookup_replicate_2. lia.
    + repeat (case_decide; [lia|]).
      rewrite lookup_app_r by lia.
      rewrite !lookup_replicate_2 by lia. done.
Qed.

(** What a record part that went through has written. *)
Lemma write_superblock2_OK (sb sb' : SuperBlock Volume) (pParms : CryptedVolumeParms)
    (w w' : World) :
  write_superblock2 sb pParms w = Some ((CORERC_OK, sb'), w') ->
  exists key p rnd,
    pKey sb = Some key
    /\ superblock2_payload sb = Some p
    /\ length rnd = RANDOM_SIZE
    /\ files w' !! (pszBasePath sb +:+ SUPERBLOCK2_NAME)
       = Some (coreEncryptSectorData (mkSector rnd p) key (flCryptoFlags pParms))
    /\ file_name (pszBasePath sb) SUPERBLOCK2_NAME
       = Some (pszBasePath sb +:+ SUPERBLOCK2_NAME).
Proof.
  unfold write_superblock2, bind.
  destruct (file_name _ _) as [szFileName|] eqn:Hname; [|by intros [=]].
  apply file_name_Some in Hname as Hname'. subst szFileName.
  destruct (fopen_w _ w) as [[[file|] w2]|] eqn:Ho; [|by intros [=]|done].
  apply fopen_w_Some in Ho as Ho'. destruct Ho' as (->&Hf2&_).
  unfold sysGetRandomBits.
  destruct (superblock2_payload sb) as [p|] eqn:Hp; [|done].
  destruct (pKey sb) as [key|]; [|done]. cbn [defined ret].
  set (rnd := map _ _). set (w3 := mkWorld _ _ _ _ _).
  destruct (fput _ _ w3) as [[[|] w4]|] eqn:Hp1; cbn [negb]; [| |done].
  2: { destruct (fclose w4) as [[? ?]|]; by intros [=]. }
  apply fput_true in Hp1 as Hp1'. destruct Hp1' as (Hf4&_).
  destruct (fclose w4) as [[rc w5]|] eqn:Hc; [|done].
  destruct (rc =? EOF) eqn:Hrc; intros [= ? ?]; subst.
  exists key, p, rnd. split; [done|]. split; [done|]. split.
  { unfold rnd. rewrite length_map, length_seq. apply Nat.div_mul. lia. }
  split.
  { apply fclose_same_store in Hc as (Hf5&_).
    rewrite Hf5, Hf4, lookup_insert_eq. subst w3. cbn [files].
    by rewrite Hf2, lookup_insert_eq. }
  done.
Qed.

(** The record that a successful [coreWriteSuperBlock] leaves is the one
    that [readSuperBlock2] reads back when no call fails and decryption
    inverts encryption. *)
Lemma write_then_read (sb sb' sb0 : SuperBlock Volume) (flags : Z)
    (w w' : World) (vol : Volume) (key : Key) (pParms : CryptedVolumeParms) :
  coreWriteSuperBlock sb flags w = Some ((CORERC_OK, sb'), w') ->
  pVolume sb = Some vol ->
  pKey sb = Some key ->
  pszBasePath sb0 = pszBasePath sb ->
  pKey sb0 = Some key ->
  flCryptoFlags pParms = flCryptoFlags (coreQueryVolumeParms vol) ->
  faults w' = [] ->
  (forall s,
      length (random s) = RANDOM_SIZE -> length (payload s) = PAYLOAD_SIZE ->
      let c := coreEncryptSectorData s key (flCryptoFlags pParms) in
      (SECTOR_SIZE <= length c)%nat
      /\ (coreDecryptSectorData (take SECTOR_SIZE c) key (flCryptoFlags pParms)).1
         = CORERC_OK
      /\ payload
           (coreDecryptSectorData (take SECTOR_SIZE c) key (flCryptoFlags pParms)).2
         = payload s) ->
  exists p,
    superblock2_payload sb = Some p
    /\ readSuperBlock2 sb0 pParms w'
       = Some ((CORERC_OK, fill_from_payload sb0 p), w').
Proof.
  intros Hw Hvol Hkey Hbase Hkey0 Hfl Hquiet Hcrypt.
  rewrite coreWriteSuperBlock_halves in Hw. unfold bind at 1 in Hw.
  rewrite Hvol in Hw. cbn [defined ret] in Hw.
  destruct (fReadOnly _); [done|]. unfold bind at 1 in Hw.
  match type of Hw with match ?m w with _ => _ end = _ =>
    destruct (m w) as [[cr1 w1]|]; [|done] end.
  destruct cr1; cbn [failed] in Hw; try done.
  apply write_superblock2_OK in Hw
    as (key'&p&rnd&Hkey'&Hp&Hrnd&Hfile&Hname).
  assert (key' = key) as -> by congruence.
  exists p. split; [done|].
  apply superblock2_payload_layout in Hp as Hlen. destruct Hlen as [Hlen _].
  destruct (Hcrypt (mkSector rnd p) Hrnd Hlen) as (Hsize&Hok&Hpay).
  rewrite <- Hfl in Hfile.
  unfold readSuperBlock2. rewrite Hbase, Hname.
  unfold bind at 1. rewrite (fopen_r_quiet _ _ Hquiet), Hfile.
  unfold bind at 1. rewrite (fread_quiet _ _ _ Hquiet).
  destruct (Nat.ltb_spec (length (coreEncryptSectorData
    {| random := rnd; payload := p |} key (flCryptoFlags pParms))) SECTOR_SIZE);
    [lia|].
  unfold bind at 1. rewrite (fclose_quiet _ Hquiet).
  change (0 =? EOF) with false. cbv iota.
  unfold bind. rewrite Hkey0. cbn [defined ret].
  destruct (coreDecryptSectorData _ _ _) as [cr sector].
  cbn [fst snd] in Hok, Hpay. by rewrite Hok, Hpay.
Qed.

(** X16.  Label and description survive a write and a read: when
    [coreWriteSuperBlock] succeeds for character arrays of at most their
    declared size, no call fails afterwards and decryption inverts
    encryption for the key and the flags of the volume, [readSuperBlock2]
    returns [CORERC_OK] and both strings as they were written, followed by
    zeros up to the size of their array. *)
Theorem strings_round_trip (sb sb' sb0 : SuperBlock Volume) (flags : Z)
    (w w' : World) (vol : Volume) (key : Key) (pParms : CryptedVolumeParms) :
  coreWriteSuperBlock sb flags w = Some ((CORERC_OK, sb'), w') ->
  pVolume sb = Some vol ->
  pKey sb = Some key ->
  pszBasePath sb0 = pszBasePath sb ->
  pKey sb0 = Some key ->
  flCryptoFlags pParms = flCryptoFlags (coreQueryVolumeParms vol) ->
  faults w' = [] ->
  (forall s,
      length (random s) = RANDOM_SIZE -> length (payload s) = PAYLOAD_SIZE ->
      let c := coreEncryptSectorData s key (flCryptoFlags pParms) in
      (SECTOR_SIZE <= length c)%nat
      /\ (coreDecryptSectorData (take SECTOR_SIZE c) key (flCryptoFlags pParms)).1
         = CORERC_OK
      /\ payload
           (coreDecryptSectorData (take SECTOR_SIZE c) key (flCryptoFlags pParms)).2
         = payload s) ->
  (length (szLabel sb) <= sizeof_szLabel)%nat ->
  (length (szDescription sb) <= sizeof_szDescription)%nat ->
  exists sb2,
    readSuperBlock2 sb0 pParms w' = Some ((CORERC_OK, sb2), w')
    /\ szLabel sb2
       = cstr (szLabel sb)
         ++ replicate (sizeof_szLabel - length (cstr (szLabel sb))) 0
    /\ szDescription sb2
       = cstr (szDescription sb)
         ++ replicate (sizeof_szDescription - length (cstr (szDescription sb))) 0
    /\ cstr (szLabel sb2) = cstr (szLabel sb)
    /\ cstr (szDescription sb2) = cstr (szDescription sb).
Proof.
  intros Hw Hvol Hkey Hbase Hkey0 Hfl Hquiet Hcrypt Hll Hld.
  destruct (write_then_read _ _ _ _ _ _ _ _ _ Hw Hvol Hkey Hbase Hkey0 Hfl Hquiet
              Hcrypt) as (p&Hp&Hread).
  destruct (superblock2_payload_strings _ _ Hp Hll Hld) as (Hcl&Hcd&Hsl&Hsd).
  eexists. split; [exact Hread|].
  cbn [fill_from_payload szLabel szDescription]. rewrite Hsl, Hsd.
  assert (Hpad : forall (s : list Z) (L : nat), (length s < L)%nat ->
            <[(L - 1)%nat := 0]> (s ++ replicate (L - length s) 0)
            = s ++ replicate (L - length s) 0).
  { intros s L Hs. apply list_insert_id.
    rewrite lookup_app_r by lia. apply lookup_replicate_2. lia. }
  rewrite !Hpad by done.
  assert (Hstr : forall (a : list Z) (L : nat), (length (cstr a) < L)%nat ->
            cstr (cstr a ++ replicate (L - length (cstr a)) 0) = cstr a).
  { intros a L Ha.
    replace (L - length (cstr a))%nat with (S (L - length (cstr a) - 1)) by lia.
    cbn [replicate]. apply cstr_app_NUL, cstr_Forall. }
  by rewrite !Hstr.
Qed.

(** X17.  The four numbers of the record after a write and a read, with
    the little-endian macros [int32ToBytes] and [bytesToInt32]: magic and
    version are the canonical ones and the flags and the root are those of
    the superblock written, all of them modulo 2^32. *)
Theorem numbers_round_trip (sb sb' sb0 : SuperBlock Volume) (flags : Z)
    (w w' : World) (vol : Volume) (key : Key) (pParms : CryptedVolumeParms) :
  coreWriteSuperBlock sb flags w = Some ((CORERC_OK, sb'), w') ->
  pVolume sb = Some vol ->
  pKey sb = Some key ->
  pszBasePath sb0 = pszBasePath sb ->
  pKey sb0 = Some key ->
  flCryptoFlags pParms = flCryptoFlags (coreQueryVolumeParms vol) ->
  faults w' = [] ->
  (forall s,
      length (random s) = RANDOM_SIZE -> length (payload s) = PAYLOAD_SIZE ->
      let c := coreEncryptSectorData s key (flCryptoFlags pParms) in
      (SECTOR_SIZE <= length c)%nat
      /\ (coreDecryptSectorData (take SECTOR_SIZE c) key (flCryptoFlags pParms)).1
         = CORERC_OK
      /\ payload
           (coreDecryptSectorData (take SECTOR_SIZE c) key (flCryptoFlags pParms)).2
         = payload s) ->
  exists sb2,
    readSuperBlock2 sb0 pParms w' = Some ((CORERC_OK, sb2), w')
    /\ magic sb2 = SUPERBLOCK2_MAGIC `mod` 2 ^ 32
    /\ version sb2 = SBV_CURRENT `mod` 2 ^ 32
    /\ flFlags sb2 = flFlags sb `mod` 2 ^ 32
    /\ idRoot sb2 = idRoot sb `mod` 2 ^ 32.
Proof.
  intros Hw Hvol Hkey Hbase Hkey0 Hfl Hquiet Hcrypt.
  destruct (write_then_read _ _ _ _ _ _ _ _ _ Hw Hvol Hkey Hbase Hkey0 Hfl Hquiet
              Hcrypt) as (p&Hp&Hread).
  apply superblock2_payload_layout in Hp as (_&Hm&Hv&Hf&Hr&_).
  eexists. split; [exact Hread|].
  cbn [fill_from_payload magic version flFlags idRoot].
  rewrite Hm, Hv, Hf, Hr. by rewrite !bytesToInt32_int32ToBytes.
Qed.

End RecordRoundTrip.
(** * The code run on concrete inputs *)

Module Runs.
Import Sample Fixtures.

(** ** C4 *)

(** C4, witness: the key phrase "hello" and a key of 16 bytes. *)
Lemma coreHashKey_reference_witness :
  0 < 16
  /\ coreHashKey (str "hello") 16 = Some (CORERC_OK, deriveKey (str "hello") 16)
  /\ coreHashKey [] 16 = Some (CORERC_OK, replicate 16 0).
Proof.
  split; [lia|]. apply (coreHashKey_reference (str "hello") 16). lia.
Defined.

(** C4, counterexample: with a key length of zero and the key phrase "a",
    the first octet of the digest is XORed into [pabKey[0]], outside the
    key; the call does not return the reference key with success. *)
Lemma coreHashKey_zero_length :
  coreHashKey (str "a") 0 <> Some (CORERC_OK, deriveKey (str "a") 0).
Proof. vm_compute. discriminate. Qed.

(** ** C1 *)

(** C1, witness: a volume whose encrypted record file is missing. *)
Lemma degraded_open_witness :
  coreReadSuperBlock "vol/" (str "secret") registry parms0 w_degraded
  = Some ((CORERC_STORAGE, Some (stage_sb3 w_degraded), parms1),
          stage_w4 w_degraded).
Proof.
  apply (degraded_open "vol/" (str "secret") registry parms0 parms1
           w_degraded (stage_w1 w_degraded) (stage_w2 w_degraded)
           (stage_w3 w_degraded) (stage_w4 w_degraded)
           (stage_sb1 w_degraded) (stage_sb2 w_degraded) (stage_sb3 w_degraded)
           CORERC_STORAGE); vm_compute; reflexivity.
Defined.

(** ** C3 *)

(** C3, counterexample.  A record that decrypts without error with a
    version above [SBV_CURRENT] and a wrong magic is answered with
    [CORERC_BAD_SUPERBLOCK], not [CORERC_BAD_VERSION]; and when the volume
    then fails to open, a record with a version above [SBV_CURRENT] is
    answered with the error of the volume and no superblock. *)
Lemma bad_magic_masks_bad_version :
  (exists sb2 w3,
      readSuperBlock2 (stage_sb1 w_bad_magic_new_version) parms1
        (stage_w2 w_bad_magic_new_version) = Some ((CORERC_OK, sb2), w3)
      /\ SBV_CURRENT < version sb2)
  /\ (exists sb p w,
         coreReadSuperBlock "vol/" (str "secret") registry parms0
           w_bad_magic_new_version
         = Some ((CORERC_BAD_SUPERBLOCK, Some sb, p), w))
  /\ (exists sb2 w3,
         readSuperBlock2 (stage_sb1 w_new_version_no_volume) parms1
           (stage_w2 w_new_version_no_volume) = Some ((CORERC_OK, sb2), w3)
         /\ SBV_CURRENT < version sb2)
  /\ (exists p w,
         coreReadSuperBlock "vol/" (str "secret") registry parms0
           w_new_version_no_volume
         = Some ((CORERC_STORAGE, None, p), w)).
Proof.
  repeat split.
  - eexists (stage_sb2 w_bad_magic_new_version), (stage_w3 w_bad_magic_new_version).
    split; vm_compute; reflexivity.
  - eexists (stage_sb3 w_bad_magic_new_version), parms1,
      (stage_w4 w_bad_magic_new_version).
    vm_compute; reflexivity.
  - eexists (stage_sb2 w_new_version_no_volume), (stage_w3 w_new_version_no_volume).
    split; vm_compute; reflexivity.
  - eexists parms1,
      (after (coreReadSuperBlock "vol/" (str "secret") registry parms0)
         w_new_version_no_volume).
    vm_compute; reflexivity.
Qed.

(** C3, witness: a canonical magic with a version above the current one. *)
Lemma record_validation_witness :
  coreReadSuperBlock "vol/" (str "secret") registry parms0 w_new_version
  = Some ((CORERC_BAD_VERSION, Some (stage_sb3 w_new_version), parms1),
          stage_w4 w_new_version).
Proof.
  destruct (record_validation "vol/" (str "secret") registry parms0 parms1
              w_new_version (stage_w1 w_new_version) (stage_w2 w_new_version)
              (stage_w3 w_new_version) (stage_w4 w_new_version)
              (stage_sb1 w_new_version) (stage_sb2 w_new_version)
              (stage_sb3 w_new_version)) as (_&_&_&Hversion);
    [vm_compute; reflexivity..|].
  apply Hversion; vm_compute; reflexivity.
Defined.

(** ** C6 and C10 *)

(** C6, witness: the cipher [blowfish] and a registry without it. *)
Lemma unknown_cipher_no_instance_witness :
  exists w',
    coreReadSuperBlock "vol/" (str "secret") registry parms0 w_blowfish
    = Some ((CORERC_UNKNOWN_CIPHER, None, parms1), w')
    /\ secure_blocks w' = secure_blocks w_blowfish
    /\ files w' = files w_blowfish.
Proof.
  apply (unknown_cipher_no_instance "vol/" (str "secret") registry parms0
           w_blowfish (stage_w1 w_blowfish) w_blowfish_opened w_blowfish_closed
           "vol/ISUPERBLOCK.1" header_blowfish
           (mkHeaderScan (str "blowfish") 16 8 1)).
  - vm_compute; reflexivity.
  - vm_compute; reflexivity.
  - vm_compute; reflexivity.
  - vm_compute; reflexivity.
  - vm_compute; reflexivity.
  - apply find_cipher_None. vm_compute; reflexivity.
Defined.

(** C10, witness: the open fails on the unknown cipher and hands back no
    superblock, and the caller's flags, 0 before the call, are 1 after. *)
Lemma parms_mutation_persists_witness :
  coreReadSuperBlock "vol/" (str "secret") registry parms0 w_blowfish
  = Some ((CORERC_UNKNOWN_CIPHER, None, parms1),
          after (coreReadSuperBlock "vol/" (str "secret") registry parms0) w_blowfish)
  /\ flCryptoFlags parms1 = cbc_after header_blowfish (flCryptoFlags parms0)
  /\ fReadOnly parms1 = fReadOnly parms0.
Proof.
  assert (Hrun : coreReadSuperBlock "vol/" (str "secret") registry parms0 w_blowfish
                 = Some ((CORERC_UNKNOWN_CIPHER, None, parms1),
                         after (coreReadSuperBlock "vol/" (str "secret") registry
                                  parms0) w_blowfish))
    by (vm_compute; reflexivity).
  split; [exact Hrun|].
  apply (parms_mutation_persists "vol/" (str "secret") registry parms0 parms1
           w_blowfish (stage_w1 w_blowfish) w_blowfish_opened
           (after (coreReadSuperBlock "vol/" (str "secret") registry parms0)
              w_blowfish)
           "vol/ISUPERBLOCK.1" header_blowfish CORERC_UNKNOWN_CIPHER None).
  - vm_compute; reflexivity.
  - vm_compute; reflexivity.
  - vm_compute; reflexivity.
  - exact Hrun.
Defined.

(** ** C9 *)

(** C9, witness: the decryption fails its check, and the members are
    those of the sector as decrypted under the wrong key. *)
Lemma decrypt_error_still_fills_witness :
  exists sb',
    readSuperBlock2 sb_keyed parms1 w_other_key
    = Some ((CORERC_OTHER 1, sb'), w_other_key_closed)
    /\ magic sb' = bytesToInt32 (slice off_magic 4 (payload sector_decrypted))
    /\ magic sb' <> magic sb_keyed
    /\ szLabel sb' !! 11%nat = Some 0
    /\ szDescription sb' !! 127%nat = Some 0.
Proof.
  destruct (decrypt_error_still_fills sb_keyed parms1 w_other_key
              w_other_key_opened w_other_key_read w_other_key_closed
              "vol/ISUPERBLOCK.2" sector_read sector_read secret_key
              (CORERC_OTHER 1) sector_decrypted)
    as (sb'&Hrun&Hmagic&_&_&_&_&Hlabel&_&_&Hdescription&_);
    [vm_compute; reflexivity..|].
  exists sb'. split; [exact Hrun|]. split; [exact Hmagic|].
  split; [rewrite Hmagic; vm_compute; discriminate|].
  split; [exact Hlabel|exact Hdescription].
Defined.

(** ** C5, C7 and C2 *)

(** C5, witness: a volume opened read-only. *)
Lemma write_read_only_witness :
  coreWriteSuperBlock sb_read_only 0 w_degraded
  = Some ((CORERC_READ_ONLY, sb_read_only), w_degraded).
Proof.
  apply (write_read_only sb_read_only 0 w_degraded (mkParms 1 true)); reflexivity.
Defined.

(** C7, witness: the write of [sb_old] succeeds. *)
Lemma write_stamps_canonical_witness :
  coreWriteSuperBlock sb_old 0 w_empty = Some ((CORERC_OK, stamp sb_old), w_written)
  /\ magic (stamp sb_old) = SUPERBLOCK2_MAGIC
  /\ version (stamp sb_old) = SBV_CURRENT
  /\ exists p,
       superblock2_payload sb_old = Some p
       /\ files w_written !! "vol/ISUPERBLOCK.2"
          = Some (coreEncryptSectorData
                    (mkSector (map (entropy w_empty) (seq 0 RANDOM_SIZE)) p)
                    secret_key 1)
       /\ slice off_magic 4 p = int32ToBytes SUPERBLOCK2_MAGIC
       /\ slice off_version 4 p = int32ToBytes SBV_CURRENT.
Proof.
  assert (Hrun : coreWriteSuperBlock sb_old 0 w_empty
                 = Some ((CORERC_OK, stamp sb_old), w_written))
    by (vm_compute; reflexivity).
  split; [exact Hrun|].
  destruct (write_stamps_canonical sb_old (stamp sb_old) 0 w_empty w_written
              CORERC_OK Hrun) as [Hok _].
  destruct (Hok eq_refl)
    as (Hmagic&Hversion&_&vol&key&szFileName&p&Hvol&Hkey&Hname&Hp&Hfile&Hm&Hv).
  split; [exact Hmagic|]. split; [exact Hversion|].
  exists p. split; [exact Hp|]. split; [|by split].
  injection Hvol as <-. injection Hkey as <-.
  vm_compute in Hname. injection Hname as <-. exact Hfile.
Defined.

(** C7, second witness: the file cannot be opened; the write fails and
    the superblock keeps its stale magic and its version. *)
Lemma write_failure_keeps_fields :
  coreWriteSuperBlock sb_old 0 (world [] [true])
  = Some ((CORERC_STORAGE, sb_old),
          after (coreWriteSuperBlock sb_old 0) (world [] [true])).
Proof. vm_compute; reflexivity. Qed.

(** C2, witness: the write of [sb_old]. *)
Lemma padding_is_zero_witness :
  exists p,
    superblock2_payload sb_old = Some p
    /\ files w_written !! "vol/ISUPERBLOCK.2"
       = Some (coreEncryptSectorData
                 (mkSector (map (entropy w_empty) (seq 0 RANDOM_SIZE)) p)
                 secret_key 1)
    /\ length p = PAYLOAD_SIZE
    /\ forall i, (sizeof_SuperBlock2OnDisk <= i < PAYLOAD_SIZE)%nat -> p !! i = Some 0.
Proof.
  destruct (padding_is_zero sb_old (stamp sb_old) 0 w_empty w_written)
    as (vol&key&szFileName&p&Hvol&Hkey&Hname&Hp&Hfile&Hlen&Hpad).
  - vm_compute. lia.
  - vm_compute. lia.
  - vm_compute; reflexivity.
  - exists p. split; [exact Hp|]. split; [|by split].
    injection Hvol as <-. injection Hkey as <-.
    vm_compute in Hname. injection Hname as <-. exact Hfile.
Defined.

(** C2, counterexample.  Two successful writes of the same superblock
    that draw different random octets: the random fields of the two
    sectors differ, and in both the payload past the record (156 octets)
    is the constant zero. *)
Lemma padding_not_random :
  (value (CORERC_STORAGE, sb_old) (coreWriteSuperBlock sb_old 0)
     (world_seeded 5 [] [])).1 = CORERC_OK
  /\ (value (CORERC_STORAGE, sb_old) (coreWriteSuperBlock sb_old 0)
        (world_seeded 6 [] [])).1 = CORERC_OK
  /\ random (sector_written (world_seeded 5 [] []))
     <> random (sector_written (world_seeded 6 [] []))
  /\ drop 156 (payload (sector_written (world_seeded 5 [] []))) = replicate 348 0
  /\ drop 156 (payload (sector_written (world_seeded 6 [] []))) = replicate 348 0.
Proof. repeat split; vm_compute; (reflexivity || discriminate). Qed.

(** ** C8 *)

(** C8.  A [cipher] line whose value matches the pattern only in part is
    not skipped: [sscanf] returns 2 instead of 3, yet the cipher
    identifier and the key size it has converted are stored, the key size
    in bits.  Here the header names [twofish] with 128-bit keys and then
    carries the line [cipher: rijndael-256]. *)
Lemma malformed_cipher_line_not_skipped :
  fst <$> sscanf_cipher (str "rijndael-256") (mkHeaderScan (str "twofish") 16 8 0)
  = Some 2
  /\ header_line (str "cipher: rijndael-256
") (mkHeaderScan (str "twofish") 16 8 0)
     = Some (mkHeaderScan (str "rijndael") 256 8 0)
  /\ header_loop (str "cipher: twofish-128-64
cipher: rijndael-256
") (mkHeaderScan [] 0 0 0)
     = Some (mkHeaderScan (str "rijndael") 256 8 0).
Proof. repeat split; vm_compute; reflexivity. Qed.

End Runs.

(** * More runs on concrete inputs *)

Module MoreRuns.
Import Sample SampleTeardown Fixtures MoreFixtures.

(** The concrete collaborators keep the count of blocks. *)
Lemma access_volume_blocks (b : string) (key : Key) (p : CryptedVolumeParms)
    (w0 : World) :
  secure_blocks (coreAccessVolume b key p w0).2 = secure_blocks w0.
Proof.
  cbn. unfold access_volume, fault. by destruct (faults w0) as [|[] ?].
Qed.

Lemma drop_volume_blocks (vol : Volume) (w0 : World) :
  secure_blocks (coreDropVolume vol w0).2 = secure_blocks w0.
Proof.
  cbn. unfold drop_volume, fault. by destruct (faults w0) as [|[] ?].
Qed.

(** The concrete sector cipher decrypts what it encrypted. *)
Lemma sample_sector_round_trip (key : Key) (fl : Z) (s : CryptedSectorData) :
  length (random s) = RANDOM_SIZE -> length (payload s) = PAYLOAD_SIZE ->
  let c := coreEncryptSectorData s key fl in
  (SECTOR_SIZE <= length c)%nat
  /\ (coreDecryptSectorData (take SECTOR_SIZE c) key fl).1 = CORERC_OK
  /\ payload (coreDecryptSectorData (take SECTOR_SIZE c) key fl).2 = payload s.
Proof.
  cbn [coreEncryptSectorData coreDecryptSectorData collaborators RANDOM_SIZE
       PAYLOAD_SIZE SECTOR_SIZE config].
  intros Hr Hp.
  assert (Hlen : length (encrypt s key fl) = 512%nat).
  { unfold encrypt. rewrite !length_app, length_map, Hr, Hp. reflexivity. }
  rewrite take_ge by lia.
  assert (Hpay : resize 504 0 (map (Z.lxor (key_octet key)) (drop 8 (encrypt s key fl)))
                 = payload s).
  { unfold encrypt.
    destruct (random s) as [|r0 [|r1 [|r2 [|r3 [|? ?]]]]]; try done.
    cbn [app drop]. rewrite drop_0, map_map.
    rewrite (map_ext _ id), map_id.
    - apply resize_all_alt. done.
    - intros x. unfold id. by rewrite <- Z.lxor_assoc, Z.lxor_nilpotent, Z.lxor_0_l. }
  split; [lia|]. unfold decrypt. cbn [fst snd payload]. rewrite Hpay.
  split; [|done].
  case_bool_decide as Hc; [done|]. exfalso. apply Hc.
  unfold encrypt.
  destruct (random s) as [|r0 [|r1 [|r2 [|r3 [|? ?]]]]]; try done.
Qed.

(** X1, witness: the volume [vol/] opened with its key phrase. *)
Lemma open_result_invariants_witness :
  (forall sb, Some (stage_sb3 w_good) = Some sb ->
              pszBasePath sb = "vol/" /\ is_Some (pKey sb) /\ is_Some (pVolume sb))
  /\ (CORERC_OK = CORERC_OK ->
      exists sb, Some (stage_sb3 w_good) = Some sb /\ magic sb = SUPERBLOCK2_MAGIC
                 /\ version sb <= SBV_CURRENT).
Proof.
  apply (open_result_invariants "vol/" (str "secret") registry parms0 parms1
           w_good (stage_w4 w_good) CORERC_OK (Some (stage_sb3 w_good))).
  vm_compute; reflexivity.
Defined.

(** X2, witness: an empty disk. *)
Lemma open_missing_header_witness :
  exists cr w',
    coreReadSuperBlock "vol/" (str "secret") registry parms0 w_empty
    = Some ((cr, None, parms0), w')
    /\ (cr = CORERC_STORAGE \/ cr = CORERC_NOT_ENOUGH_MEMORY)
    /\ files w' = files w_empty /\ secure_blocks w' = secure_blocks w_empty.
Proof.
  apply (open_missing_header "vol/" (str "secret") registry parms0 w_empty
           "vol/ISUPERBLOCK.1"); vm_compute; reflexivity.
Defined.

(** X3, witness: a base path of 400 characters. *)
Lemma open_overlong_path_witness :
  exists cr w',
    coreReadSuperBlock long_base (str "secret") registry parms0 w_good
    = Some ((cr, None, parms0), w')
    /\ (cr = CORERC_INVALID_PARAMETER \/ cr = CORERC_NOT_ENOUGH_MEMORY)
    /\ files w' = files w_good /\ secure_blocks w' = secure_blocks w_good
    /\ faults w' = tail (faults w_good).
Proof.
  apply (open_overlong_path long_base (str "secret") registry parms0 w_good).
  apply Nat.leb_le. vm_compute; reflexivity.
Defined.

(** X4, witness: the volume without its record file. *)
Lemma readSuperBlock2_unreadable_witness :
  exists w',
    readSuperBlock2 sb_keyed parms1 w_degraded = Some ((CORERC_STORAGE, sb_keyed), w')
    /\ files w' = files w_degraded /\ secure_blocks w' = secure_blocks w_degraded.
Proof.
  apply (readSuperBlock2_unreadable sb_keyed parms1 w_degraded "vol/ISUPERBLOCK.2").
  - vm_compute; reflexivity.
  - left. vm_compute; reflexivity.
Defined.

(** X5, witness: the header of [vol/], the key phrase [secret] and a
    registry that holds [twofish] behind [rijndael]. *)
Lemma readSuperBlock1_derived_key_witness :
  readSuperBlock1 sb_keyed (str "secret") parms0
    ([mkCipher (str "rijndael")] ++ mkCipher (str "twofish") :: []) w_degraded
  = Some ((cipherResultToCore CIPHERRC_OK, set_pKey secret_key sb_keyed,
           mkParms (scanFlags (mkHeaderScan (str "twofish") 16 16 1))
             (fReadOnly parms0)), w_header_closed).
Proof.
  apply (readSuperBlock1_derived_key sb_keyed (str "secret") parms0
           [mkCipher (str "rijndael")] [] (mkCipher (str "twofish"))
           w_degraded w_header_opened w_header_closed "vol/ISUPERBLOCK.1" header
           (mkHeaderScan (str "twofish") 16 16 1) CIPHERRC_OK secret_key).
  - vm_compute; reflexivity.
  - vm_compute; reflexivity.
  - vm_compute; reflexivity.
  - vm_compute; reflexivity.
  - vm_compute; reflexivity.
  - constructor; [vm_compute; discriminate|constructor].
  - vm_compute. split; [reflexivity|discriminate].
  - vm_compute; reflexivity.
Defined.

(** X6, witness: a header that asks for keys of 192 bits. *)
Lemma open_key_refused_witness :
  exists w',
    coreReadSuperBlock "vol/" (str "secret")
      ([mkCipher (str "rijndael")] ++ mkCipher (str "twofish") :: []) parms0 w_192
    = Some ((cipherResultToCore (CIPHERRC_OTHER 1), None,
             mkParms (scanFlags (mkHeaderScan (str "twofish") 24 16 1))
               (fReadOnly parms0)), w')
    /\ (cipherResultToCore (CIPHERRC_OTHER 1) = CORERC_NOT_ENOUGH_MEMORY
        \/ cipherResultToCore (CIPHERRC_OTHER 1) = CORERC_UNKNOWN_CIPHER
        \/ cipherResultToCore (CIPHERRC_OTHER 1) = CORERC_MISC_CIPHER)
    /\ secure_blocks w' = secure_blocks w_192 /\ files w' = files w_192.
Proof.
  apply (open_key_refused "vol/" (str "secret") parms0
           [mkCipher (str "rijndael")] [] (mkCipher (str "twofish"))
           w_192 (stage_w1 w_192) w_192_opened w_192_closed "vol/ISUPERBLOCK.1"
           header_192 (mkHeaderScan (str "twofish") 24 16 1)
           (CIPHERRC_OTHER 1) key_192).
  - vm_compute; reflexivity.
  - vm_compute; reflexivity.
  - vm_compute; reflexivity.
  - vm_compute; reflexivity.
  - vm_compute; reflexivity.
  - vm_compute; reflexivity.
  - constructor; [vm_compute; discriminate|constructor].
  - vm_compute. split; [reflexivity|discriminate].
  - vm_compute; reflexivity.
  - discriminate.
Defined.

(** X7, witness: the key phrase [hello] and a key of 32 octets. *)
Lemma short_phrase_zero_suffix_witness :
  exists key,
    coreHashKey (str "hello") 32 = Some (CORERC_OK, key)
    /\ length key = Z.to_nat 32
    /\ forall i, (SHA_DIGESTSIZE * 1 <= i < Z.to_nat 32)%nat -> key !! i = Some 0.
Proof.
  apply (short_phrase_zero_suffix (str "hello") 32 1).
  - lia.
  - apply Nat.leb_le. vm_compute; reflexivity.
Defined.

(** X8, witness: the key phrase [hello] and a key of 32 octets. *)
Lemma one_chunk_key_witness :
  coreHashKey (str "hello") 32
  = Some (CORERC_OK,
          sha (replicate (Z.to_nat 32) 0 ++ str "hello")
          ++ replicate (Z.to_nat 32 - SHA_DIGESTSIZE) 0).
Proof.
  apply (one_chunk_key (str "hello") 32).
  - vm_compute; discriminate.
  - apply Nat.leb_le. vm_compute; reflexivity.
  - vm_compute; discriminate.
Defined.

(** X9, witness: the volume [vol/] opened with its key phrase. *)
Lemma open_block_accounting_witness :
  secure_blocks (stage_w4 w_good) = S (secure_blocks w_good).
Proof.
  apply (open_block_accounting "vol/" (str "secret") registry parms0 parms1
           w_good (stage_w4 w_good) CORERC_OK (Some (stage_sb3 w_good))).
  - apply access_volume_blocks.
  - vm_compute; reflexivity.
Defined.

(** X10, witness: the volume refuses to be dropped. *)
Lemma drop_stops_on_volume_error_witness :
  exists w',
    coreDropSuperBlock sb_old w_failing = Some (CORERC_STORAGE, w')
    /\ (CORERC_STORAGE <> CORERC_OK -> w' = (drop_volume parms1 w_failing).2)
    /\ (CORERC_STORAGE = CORERC_OK ->
        secure_blocks w'
        = pred (secure_blocks (cryptDestroyKey secret_key
                                 (drop_volume parms1 w_failing).2))
        /\ files w'
           = files (cryptDestroyKey secret_key (drop_volume parms1 w_failing).2)).
Proof.
  apply (drop_stops_on_volume_error sb_old parms1 secret_key w_failing
           (drop_volume parms1 w_failing).2 CORERC_STORAGE);
    vm_compute; reflexivity.
Defined.

(** X11, witness: the volume [vol/] opened and dropped. *)
Lemma open_then_drop_witness :
  secure_blocks w_good_dropped = secure_blocks w_good.
Proof.
  apply (open_then_drop "vol/" (str "secret") registry parms0 parms1
           w_good (stage_w4 w_good) w_good_dropped CORERC_OK (stage_sb3 w_good)).
  - apply access_volume_blocks.
  - apply drop_volume_blocks.
  - reflexivity.
  - vm_compute; reflexivity.
  - vm_compute; reflexivity.
Defined.

(** X12, witness: a write beside a file of another name. *)
Lemma write_touches_only_its_files_witness :
  files (after (coreWriteSuperBlock sb_old 0) w_other_file) !! "vol/other"
  = files w_other_file !! "vol/other"
  /\ secure_blocks (after (coreWriteSuperBlock sb_old 0) w_other_file)
     = secure_blocks w_other_file.
Proof.
  apply (write_touches_only_its_files sb_old (stamp sb_old) 0 w_other_file
           (after (coreWriteSuperBlock sb_old 0) w_other_file) CORERC_OK "vol/other").
  - vm_compute; reflexivity.
  - vm_compute; discriminate.
  - vm_compute; discriminate.
Defined.

(** X13, witness: a write with [CWS_NOWRITE_SUPERBLOCK1] over a header. *)
Lemma nowrite_keeps_header_witness :
  files (after (coreWriteSuperBlock sb_old 1) w_degraded) !! "vol/ISUPERBLOCK.1"
  = files w_degraded !! "vol/ISUPERBLOCK.1".
Proof.
  apply (nowrite_keeps_header sb_old (stamp sb_old) 1 w_degraded
           (after (coreWriteSuperBlock sb_old 1) w_degraded) CORERC_OK
           "vol/ISUPERBLOCK.1").
  - vm_compute; discriminate.
  - vm_compute; reflexivity.
  - vm_compute; discriminate.
Defined.

(** X14, witness: the header file cannot be opened for writing. *)
Lemma header_failure_spares_record_witness :
  coreWriteSuperBlock sb_old 0 w_failing
  = Some ((CORERC_STORAGE, sb_old),
          after (write_superblock1 sb_old parms1) w_failing)
  /\ ("vol/ISUPERBLOCK.2" <> pszBasePath sb_old +:+ SUPERBLOCK1_NAME ->
      files (after (write_superblock1 sb_old parms1) w_failing) !! "vol/ISUPERBLOCK.2"
      = files w_failing !! "vol/ISUPERBLOCK.2").
Proof.
  apply (header_failure_spares_record sb_old 0 w_failing
           (after (write_superblock1 sb_old parms1) w_failing) parms1
           CORERC_STORAGE "vol/ISUPERBLOCK.2").
  - vm_compute; reflexivity.
  - vm_compute; reflexivity.
  - vm_compute; reflexivity.
  - vm_compute; reflexivity.
  - discriminate.
Defined.


(** X16, witness: label and description of [sb_old] written and read. *)
Lemma strings_round_trip_witness :
  exists sb2,
    readSuperBlock2 sb_keyed parms1 w_written = Some ((CORERC_OK, sb2), w_written)
    /\ szLabel sb2
       = cstr (szLabel sb_old)
         ++ replicate (sizeof_szLabel - length (cstr (szLabel sb_old))) 0
    /\ szDescription sb2
       = cstr (szDescription sb_old)
         ++ replicate (sizeof_szDescription - length (cstr (szDescription sb_old))) 0
    /\ cstr (szLabel sb2) = cstr (szLabel sb_old)
    /\ cstr (szDescription sb2) = cstr (szDescription sb_old).
Proof.
  apply (strings_round_trip sb_old (stamp sb_old) sb_keyed 0 w_empty w_written
           parms1 secret_key parms1).
  - vm_compute; reflexivity.
  - vm_compute; reflexivity.
  - vm_compute; reflexivity.
  - vm_compute; reflexivity.
  - vm_compute; reflexivity.
  - vm_compute; reflexivity.
  - vm_compute; reflexivity.
  - apply sample_sector_round_trip.
  - apply Nat.leb_le. vm_compute; reflexivity.
  - apply Nat.leb_le. vm_compute; reflexivity.
Defined.

(** X17, witness: the numbers of [sb_old] written and read. *)
Lemma numbers_round_trip_witness :
  exists sb2,
    readSuperBlock2 sb_keyed parms1 w_written = Some ((CORERC_OK, sb2), w_written)
    /\ magic sb2 = SUPERBLOCK2_MAGIC `mod` 2 ^ 32
    /\ version sb2 = SBV_CURRENT `mod` 2 ^ 32
    /\ flFlags sb2 = flFlags sb_old `mod` 2 ^ 32
    /\ idRoot sb2 = idRoot sb_old `mod` 2 ^ 32.
Proof.
  apply (numbers_round_trip sb_old (stamp sb_old) sb_keyed 0 w_empty w_written
           parms1 secret_key parms1).
  - vm_compute; reflexivity.
  - vm_compute; reflexivity.
  - vm_compute; reflexivity.
  - vm_compute; reflexivity.
  - vm_compute; reflexivity.
  - vm_compute; reflexivity.
  - vm_compute; reflexivity.
  - apply sample_sector_round_trip.
Defined.

(** X18, witness: a header that asks for keys of 512 bits, where
    [MAX_KEY_SIZE] is 32. *)
Lemma key_size_unchecked_witness :
  readSuperBlock1 sb_keyed (str "secret") parms0 registry w_512 = None.
Proof.
  apply (key_size_unchecked sb_keyed (str "secret") parms0 registry
           (mkCipher (str "twofish")) w_512 w_512_opened w_512_closed
           "vol/ISUPERBLOCK.1" header_512 (mkHeaderScan (str "twofish") 64 16 0)).
  - vm_compute; reflexivity.
  - vm_compute; reflexivity.
  - vm_compute; reflexivity.
  - vm_compute; reflexivity.
  - vm_compute; reflexivity.
  - right. vm_compute; reflexivity.
Defined.

End MoreRuns.
